(** * A verified model of map-oxidize (src/main.rs)

    The program counts words of a text file with a map phase and a reduce
    phase running on tokio worker pools.  This file embeds the functions of
    [src/main.rs] shallowly:
    - [HashMap<String, usize>] is [gmap string N]; a [usize] is an [N] below
      [2^64] and [+=] wraps around as in a release build;
    - strings and file contents are Stdlib [string]s, sequences of bytes;
      reading a file line by line decodes each line as UTF-8 and fails on
      bytes that are not UTF-8; on characters the model has the ASCII part
      of [char::is_whitespace] and [str::to_lowercase];
    - the file system is a [gmap string string] from file names to contents,
      with an [access] record saying which paths cannot be opened for
      reading or for writing, and with which error;
    - the iteration order of a [HashMap] is unspecified, so every function
      that iterates over one takes the entry list it visits, any permutation
      of [map_to_list]. *)

From Stdlib Require Import Ascii String DecimalString DecimalN.
From stdpp Require Import base list gmap strings fin_maps sorting.

Local Open Scope N_scope.

(** ** usize arithmetic *)

Definition usize_bound : N := 2 ^ 64.

(** [a + b] on [usize], wrapping on overflow. *)
Definition usize_add (a b : N) : N := (a + b) mod usize_bound.

(** ** Characters and tokens *)

(** [char::is_whitespace] on ASCII: tab, line feed, vertical tab, form
    feed, carriage return and space. *)
Definition is_whitespace (c : ascii) : bool :=
  let n := nat_of_ascii c in
  ((9 <=? n) && (n <=? 13))%nat || (n =? 32)%nat.

(** [char::to_lowercase] on ASCII. *)
Definition char_to_lowercase (c : ascii) : ascii :=
  let n := nat_of_ascii c in
  if ((65 <=? n) && (n <=? 90))%nat then ascii_of_nat (n + 32) else c.

(** [str::to_lowercase]. *)
Fixpoint to_lowercase (s : string) : string :=
  match s with
  | EmptyString => EmptyString
  | String c r => String (char_to_lowercase c) (to_lowercase r)
  end.

(** [str::split(char::is_whitespace)]: the pieces between single
    whitespace characters, empty pieces included. *)
Fixpoint split_ws_pieces (s : string) : list string :=
  match s with
  | EmptyString => [EmptyString]
  | String c r =>
      match split_ws_pieces r with
      | [] => []
      | t :: ts =>
          if is_whitespace c then EmptyString :: t :: ts
          else String c t :: ts
      end
  end.

(** [str::split_whitespace] is [split(char::is_whitespace)] with the empty
    pieces filtered out. *)
Definition split_whitespace (s : string) : list string :=
  filter (fun t => t <> EmptyString) (split_ws_pieces s).

(** ** count_words (main.rs, lines 93-100) *)

(** [*word_counts.entry(word).or_insert(0) += 1] *)
Definition bump (m : gmap string N) (w : string) : gmap string N :=
  <[w := usize_add (default 0 (m !! w)) 1]> m.

(** Counting a sequence of tokens into a [HashMap]. *)
Definition count_tokens (ws : list string) : gmap string N :=
  foldl bump ∅ ws.

Definition count_words (text : string) : gmap string N :=
  count_tokens (map to_lowercase (split_whitespace text)).

(** ** Decimal formatting and parsing of usize *)

(** [format!("{}", n)] for a [usize]. *)
Definition show_usize (n : N) : string :=
  NilZero.string_of_uint (N.to_uint n).

(** [str::parse::<usize>]: an optional ['+'], then one or more decimal
    digits, the value below [2^64]. *)
Definition parse_usize (s : string) : option N :=
  let digits := match s with
                | String "+"%char r => r
                | _ => s
                end in
  match NilZero.uint_of_string digits with
  | Some u => let n := N.of_uint u in
              if n <? usize_bound then Some n else None
  | None => None
  end.

(** ** Files *)

(** The file system: file names to contents. *)
Abbreviation fsys := (gmap string string) (only parsing).

(** The [std::io::Error]s the program meets: a missing file ([ENOENT]), a
    refused access ([EACCES]), the error [next_line] returns on bytes that
    are not UTF-8, and any other error of the operating system, with its
    code and description ([EISDIR] "Is a directory", [ENOSPC], ...). *)
Inductive io_error :=
| NotFound
| PermissionDenied
| InvalidData
| OsError (code : N) (description : string).

Inductive io_result (A : Type) :=
| Ok (a : A)
| Err (e : io_error).
Arguments Ok {A} _.
Arguments Err {A} _.

(** [str::split('\n')]. *)
Fixpoint split_newline (s : string) : list string :=
  match s with
  | EmptyString => [EmptyString]
  | String c r =>
      match split_newline r with
      | [] => []
      | t :: ts =>
          if Ascii.eqb c "010"%char then EmptyString :: t :: ts
          else String c t :: ts
      end
  end.

(** Drops one trailing carriage return. *)
Fixpoint strip_cr (s : string) : string :=
  match s with
  | EmptyString => EmptyString
  | String c EmptyString =>
      if Ascii.eqb c "013"%char then EmptyString else s
  | String c r => String c (strip_cr r)
  end.

(** [BufReader::lines] / [next_line]: every line ended by a line feed loses
    it and then one carriage return before it; a last line without a line
    feed is returned as it is, and an empty remainder yields no line. *)
Definition lines (s : string) : list string :=
  let ps := split_newline s in
  map strip_cr (removelast ps) ++
  (if String.eqb (List.last ps EmptyString) EmptyString then []
   else [List.last ps EmptyString]).

(** UTF-8 validation ([str::from_utf8]) as an automaton over the bytes:
    [U8Need n lo hi] waits for [n] more continuation bytes (0x80-0xBF), the
    next one in [lo, hi].  The leading bytes and the ranges of the first
    continuation byte are those of the well-formed UTF-8 byte sequences
    (no overlong forms, no surrogates, nothing above U+10FFFF). *)
Inductive utf8_state := U8Start | U8Need (n lo hi : nat).

Definition in_range (b lo hi : nat) : bool := ((lo <=? b) && (b <=? hi))%nat.

Definition utf8_next (st : utf8_state) (c : ascii) : option utf8_state :=
  let b := nat_of_ascii c in
  match st with
  | U8Start =>
      if (b <? 128)%nat then Some U8Start
      else if in_range b 194 223 then Some (U8Need 1 128 191)
      else if (b =? 224)%nat then Some (U8Need 2 160 191)
      else if in_range b 225 236 then Some (U8Need 2 128 191)
      else if (b =? 237)%nat then Some (U8Need 2 128 159)
      else if in_range b 238 239 then Some (U8Need 2 128 191)
      else if (b =? 240)%nat then Some (U8Need 3 144 191)
      else if in_range b 241 243 then Some (U8Need 3 128 191)
      else if (b =? 244)%nat then Some (U8Need 3 128 143)
      else None
  | U8Need n lo hi =>
      if in_range b 128 191 && in_range b lo hi then
        Some (match n with
              | O | S O => U8Start
              | S m => U8Need m 128 191
              end)
      else None
  end.

Fixpoint utf8_run (st : utf8_state) (s : string) : option utf8_state :=
  match s with
  | EmptyString => Some st
  | String c r =>
      match utf8_next st c with
      | Some st' => utf8_run st' r
      | None => None
      end
  end.

Definition utf8_valid (s : string) : bool :=
  match utf8_run U8Start s with
  | Some U8Start => true
  | _ => false
  end.

(** [next_line] reads the bytes up to the next line feed and decodes them
    as UTF-8, failing with [InvalidData] when they are not; the [while let]
    loops of the program stop at the first such error and return it.  So
    reading the lines of a text succeeds exactly when every piece between
    line feeds is UTF-8. *)
Definition read_lines_io (content : string) : io_result (list string) :=
  if forallb utf8_valid (split_newline content) then Ok (lines content)
  else Err InvalidData.

(** [format!("{} {}\n", word, count)] *)
Definition record_line (e : string * N) : string :=
  e.1 +:+ " " +:+ show_usize e.2 +:+ String "010"%char EmptyString.

(** The text written for a map, visiting its entries in the order [es]. *)
Definition render (es : list (string * N)) : string :=
  String.concat EmptyString (map record_line es).

(** ** write_map_result (main.rs, lines 102-108)

    [File::create] truncates: the file holds exactly the new text. *)
Definition write_map_result (fs : fsys) (file_name : string)
    (es : list (string * N)) : fsys :=
  <[file_name := render es]> fs.

(** ** read_map_result (main.rs, lines 151-167) *)

(** One line: kept when it splits into two whitespace separated fields
    and the second parses as a [usize]. *)
Definition parse_line (line : string) : option (string * N) :=
  match split_whitespace line with
  | [w; c] => match parse_usize c with
              | Some n => Some (w, n)
              | None => None
              end
  | _ => None
  end.

(** One iteration of the loop: [word_counts.insert(parts[0].to_string(),
    count)] for a kept line, nothing otherwise. *)
Definition read_line_step (m : gmap string N) (line : string) : gmap string N :=
  match parse_line line with
  | Some (w, n) => <[w := n]> m
  | None => m
  end.

Definition read_lines (ls : list string) : gmap string N :=
  foldl read_line_step ∅ ls.

(** The contents of a record file, parsed. *)
Definition read_contents (content : string) : gmap string N :=
  read_lines (lines content).

(** [read_map_result] on a file that opens and whose lines are UTF-8:
    [File::open] fails on a missing file, and the lines are parsed.  The
    function with all its errors is [read_map_result_io] below. *)
Definition read_map_result (fs : fsys) (file_name : string)
    : io_result (gmap string N) :=
  match fs !! file_name with
  | Some content => Ok (read_contents content)
  | None => Err NotFound
  end.

(** Which paths the process may not open: [read_denied name] is the error
    opening [name] for reading (or its first read) fails with, for a file
    the process may not read ([PermissionDenied]) or a directory
    ([OsError 21 "Is a directory"]); [write_denied name] is the error
    [File::create] or [OpenOptions::open] fails with on [name].  [None]:
    the operation is allowed.  Writing to a file once it is open is taken
    to succeed. *)
Record access := {
  read_denied : string -> option io_error;
  write_denied : string -> option io_error
}.

(** [File::open] followed by [lines()] and [next_line] until [None]: the
    lines of a file, or the first error met. *)
Definition open_lines (ac : access) (fs : fsys) (file_name : string)
    : io_result (list string) :=
  match read_denied ac file_name with
  | Some e => Err e
  | None =>
      match fs !! file_name with
      | None => Err NotFound
      | Some content => read_lines_io content
      end
  end.

(** [read_map_result] (main.rs, lines 151-167), every [?] included. *)
Definition read_map_result_io (ac : access) (fs : fsys) (file_name : string)
    : io_result (gmap string N) :=
  match open_lines ac fs file_name with
  | Ok ls => Ok (read_lines ls)
  | Err e => Err e
  end.

(** ** write_final_result (main.rs, lines 169-181)

    [OpenOptions::new().write(true).create(true)] opens without
    truncating: the new text overwrites the old contents from offset 0,
    and whatever lies beyond its end stays. *)
Definition final_file : string := "final_result.txt".

Definition overwrite_from_start (old new : string) : string :=
  new +:+ substring (String.length new) (String.length old - String.length new) old.

Definition write_final_result (fs : fsys) (es : list (string * N)) : fsys :=
  let old := default EmptyString (fs !! final_file) in
  <[final_file := overwrite_from_start old (render es)]> fs.

(** ** cleanup_intermediate_files (main.rs, lines 193-199) *)

(** [remove_file]: [fails name] says whether the file system refuses the
    removal for lack of permission ([EACCES]); a missing file is
    [NotFound]. *)
Definition remove_file (fails : string -> bool) (fs : fsys) (name : string)
    : fsys * io_result unit :=
  if fails name then (fs, Err PermissionDenied)
  else match fs !! name with
       | Some _ => (delete name fs, Ok tt)
       | None => (fs, Err NotFound)
       end.

(** [Display] of an [io::Error]: an error of the operating system prints
    its description and its code, the decoding error its message. *)
Definition show_io_error (e : io_error) : string :=
  match e with
  | NotFound => "No such file or directory (os error 2)"
  | PermissionDenied => "Permission denied (os error 13)"
  | InvalidData => "stream did not contain valid UTF-8"
  | OsError code description =>
      description +:+ " (os error " +:+ show_usize code +:+ ")"
  end.

(** [eprintln!("Error deleting file {}: {}", file_name, e)] *)
Definition delete_error_line (name : string) (e : io_error) : string :=
  "Error deleting file " +:+ name +:+ ": " +:+ show_io_error e.

(** What a run of the cleanup leaves: the file system, the names whose
    removal was attempted, the lines written to stderr, and the result. *)
Record cleanup_out := {
  co_fs : fsys;
  co_attempted : list string;
  co_stderr : list string;
  co_result : io_result unit
}.

Fixpoint cleanup_loop (fails : string -> bool) (fs : fsys)
    (map_results : list string) (attempted stderr : list string)
    : cleanup_out :=
  match map_results with
  | [] => {| co_fs := fs; co_attempted := attempted; co_stderr := stderr;
             co_result := Ok tt |}
  | file_name :: rest =>
      let '(fs', r) := remove_file fails fs file_name in
      let stderr' := match r with
                     | Ok _ => stderr
                     | Err e => stderr ++ [delete_error_line file_name e]
                     end in
      cleanup_loop fails fs' rest (attempted ++ [file_name]) stderr'
  end.

Definition cleanup_intermediate_files (fails : string -> bool) (fs : fsys)
    (map_results : list string) : cleanup_out :=
  cleanup_loop fails fs map_results [] [].

(** ** split_file (main.rs, lines 36-51)

    The input is the sequence of lines [next_line] yields.  An index out of
    bounds or a remainder by zero panics: [None]. *)

(** [(chunk_index + 1) % num_chunks] *)
Definition next_index (num_chunks chunk_index : nat) : option nat :=
  if (num_chunks =? 0)%nat then None
  else Some ((chunk_index + 1) mod num_chunks)%nat.

(** One iteration of the [while let] loop. *)
Definition split_step (num_chunks : nat) (st : list string * nat) (line : string)
    : option (list string * nat) :=
  let '(chunks, chunk_index) := st in
  match chunks !! chunk_index with
  | None => None
  | Some s =>
      let chunks' := <[chunk_index := (s +:+ line) +:+ String "010"%char EmptyString]> chunks in
      match next_index num_chunks chunk_index with
      | None => None
      | Some i => Some (chunks', i)
      end
  end.

Fixpoint split_run (num_chunks : nat) (st : list string * nat) (ls : list string)
    : option (list string * nat) :=
  match ls with
  | [] => Some st
  | line :: rest =>
      match split_step num_chunks st line with
      | None => None
      | Some st' => split_run num_chunks st' rest
      end
  end.

Definition split_file (ls : list string) (num_chunks : nat) : option (list string) :=
  match split_run num_chunks (replicate num_chunks EmptyString, 0%nat) ls with
  | Some (chunks, _) => Some chunks
  | None => None
  end.

(** ** reduce_phase (main.rs, lines 110-149)

    A worker reads a record without the lock and merges it holding the
    lock for the whole record, so the aggregate is the merge of the records
    one after the other, in the order the workers took the lock: any
    permutation of the records read.  Each record is visited in its own
    [HashMap] order. *)

(** [*final_result.entry(word).or_insert(0) += count] *)
Definition merge_entry (agg : gmap string N) (e : string * N) : gmap string N :=
  <[e.1 := usize_add (default 0 (agg !! e.1)) e.2]> agg.

Definition merge_record (agg : gmap string N) (es : list (string * N)) : gmap string N :=
  foldl merge_entry agg es.

(** The aggregate after merging the records in the order [order], each
    given by the entry list its iteration visits. *)
Definition reduce_records (order : list (list (string * N))) : gmap string N :=
  foldl merge_record ∅ order.

(** ** print_top_words (main.rs, lines 183-191)

    [sort_by_key] with key [Reverse] of the count is a stable sort on the
    count, descending.  Every stable sort gives the same result; insertion
    sort is the one embedded here: an entry goes after every entry already
    placed whose count is not smaller. *)
Fixpoint insert_desc (x : string * N) (l : list (string * N)) : list (string * N) :=
  match l with
  | [] => [x]
  | y :: l' => if y.2 <? x.2 then x :: y :: l' else y :: insert_desc x l'
  end.

Definition sort_by_count_desc (es : list (string * N)) : list (string * N) :=
  foldl (fun acc x => insert_desc x acc) [] es.

(** [println!("Top {} words:", n)] *)
Definition top_header (n : nat) : string :=
  "Top " +:+ show_usize (N.of_nat n) +:+ " words:".

(** [println!("{}: {}", word, count)] *)
Definition top_line (e : string * N) : string :=
  e.1 +:+ ": " +:+ show_usize e.2.

(** The lines printed on stdout, the map visited in the order [es]. *)
Definition print_top_words (es : list (string * N)) (n : nat) : list string :=
  top_header n :: map top_line (take n (sort_by_count_desc es)).

(** ** map_phase (main.rs, lines 53-91)

    The pool is a transition system.  Worker [i] loops: it pops the last
    chunk of the shared queue under the lock (or stops on an empty queue),
    counts its words, writes [map_i.txt], then pushes that name on the
    shared result list under the lock.  Workers interleave freely.  When
    [File::create] fails, [?] ends the worker with that error. *)
Definition map_name (worker_id : nat) : string :=
  "map_" +:+ show_usize (N.of_nat worker_id) +:+ ".txt".

Inductive worker :=
| Idle
| Popped (text : string)
| Wrote
| Stopped
| Failed (e : io_error).

Record mstate := {
  m_queue : list string;
  m_results : list string;
  m_fs : fsys;
  m_workers : list worker
}.

Definition set_worker (s : mstate) (i : nat) (w : worker) : mstate :=
  {| m_queue := m_queue s; m_results := m_results s; m_fs := m_fs s;
     m_workers := <[i := w]> (m_workers s) |}.

Inductive map_step (ac : access) : mstate -> mstate -> Prop :=
| step_pop s i q c :
    m_workers s !! i = Some Idle ->
    m_queue s = q ++ [c] ->
    map_step ac s {| m_queue := q; m_results := m_results s; m_fs := m_fs s;
                     m_workers := <[i := Popped c]> (m_workers s) |}
| step_stop s i :
    m_workers s !! i = Some Idle ->
    m_queue s = [] ->
    map_step ac s (set_worker s i Stopped)
| step_write s i text es :
    m_workers s !! i = Some (Popped text) ->
    write_denied ac (map_name i) = None ->
    es ≡ₚ map_to_list (count_words text) ->
    map_step ac s {| m_queue := m_queue s; m_results := m_results s;
                     m_fs := write_map_result (m_fs s) (map_name i) es;
                     m_workers := <[i := Wrote]> (m_workers s) |}
| step_write_fail s i text e :
    m_workers s !! i = Some (Popped text) ->
    write_denied ac (map_name i) = Some e ->
    map_step ac s (set_worker s i (Failed e))
| step_push s i :
    m_workers s !! i = Some Wrote ->
    map_step ac s {| m_queue := m_queue s; m_results := m_results s ++ [map_name i];
                     m_fs := m_fs s; m_workers := <[i := Idle]> (m_workers s) |}.

Definition map_init (chunks : list string) (num_workers : nat) (fs : fsys) : mstate :=
  {| m_queue := chunks; m_results := []; m_fs := fs;
     m_workers := replicate num_workers Idle |}.

(** Every handle joined with [Ok]: each worker has left its loop normally. *)
Definition map_done (s : mstate) : Prop := Forall (fun w => w = Stopped) (m_workers s).

(** [map_phase chunks num_workers] may return [Ok (m_results s)] (leaving
    the files [m_fs s]) when a run of the pool reaches a state [s] where
    every handle joins with [Ok]. *)
Definition map_phase (ac : access) (chunks : list string) (num_workers : nat) (fs : fsys)
    (s : mstate) : Prop :=
  rtc (map_step ac) (map_init chunks num_workers fs) s /\ map_done s.

(** The join loop [handle.await??] returns [Err e]: the handles before the
    one of a worker that failed with [e] have joined with [Ok]. *)
Definition map_join_err (ws : list worker) (e : io_error) : Prop :=
  exists pre post, ws = pre ++ Failed e :: post /\ Forall (fun w => w = Stopped) pre.

(** ** Views used to state the properties *)

(** The lines at positions [d], [d + C], [d + 2C], ... of [ls]. *)
Fixpoint every_nth (C d : nat) (ls : list string) : list string :=
  match ls with
  | [] => []
  | x :: r =>
      match d with
      | O => x :: every_nth C (C - 1) r
      | S d' => every_nth C d' r
      end
  end.

(** The text of lines each followed by a line feed. *)
Definition nl_concat (ls : list string) : string :=
  String.concat EmptyString (map (fun l => l +:+ String "010"%char EmptyString) ls).

(** The sum of the counts an entry list gives to [w]. *)
Definition sum_key (w : string) (es : list (string * N)) : N :=
  foldr (fun e acc => (if decide (e.1 = w) then e.2 else 0) + acc) 0 es.

(** The sum of the counts a collection of maps gives to [w]. *)
Definition total (w : string) (recs : list (gmap string N)) : N :=
  foldr (fun r acc => default 0 (r !! w) + acc) 0 recs.

(** A string with no whitespace character. *)
Fixpoint no_ws (s : string) : bool :=
  match s with
  | EmptyString => true
  | String c r => negb (is_whitespace c) && no_ws r
  end.

(** A string with no line feed. *)
Fixpoint no_lf (s : string) : bool :=
  match s with
  | EmptyString => true
  | String c r => negb (Ascii.eqb c "010"%char) && no_lf r
  end.

(** A record line without its line feed. *)
Definition record_body (e : string * N) : string :=
  e.1 +:+ String " "%char (show_usize e.2).

(** The sum of the counts a list of entry lists gives to [w]. *)
Definition sum_keys (w : string) (order : list (list (string * N))) : N :=
  foldr (fun es acc => sum_key w es + acc) 0 order.

(** A token list as entries of count one. *)
Definition ones (ws : list string) : list (string * N) := (fun w => (w, 1)) <$> ws.

(** [map.insert(k, v)] as a step of a fold over entries. *)
Definition insert_entry (m : gmap string N) (e : string * N) : gmap string N :=
  <[e.1 := e.2]> m.

(** A worker that holds a chunk it has not yet reported. *)
Definition is_busy (w : worker) : nat :=
  match w with
  | Popped _ | Wrote | Failed _ => 1
  | Idle | Stopped => 0
  end%nat.

Fixpoint busy (ws : list worker) : nat :=
  match ws with
  | [] => 0
  | w :: r => is_busy w + busy r
  end%nat.

(** What stays true along every run of the map pool started from
    [map_init chunks num_workers fs]: each chunk is in the queue, held by a
    worker (or lost by a worker that failed), or reported by one result
    name; every name is a worker's; a
    worker stops only on an empty queue, which stays empty. *)
Definition map_inv (chunks : list string) (num_workers : nat) (s : mstate) : Prop :=
  length (m_workers s) = num_workers /\
  (length (m_queue s) + busy (m_workers s) + length (m_results s) = length chunks)%nat /\
  Forall (fun r => exists k, (k < num_workers)%nat /\ r = map_name k) (m_results s) /\
  (Stopped ∈ m_workers s -> m_queue s = []).

(** [y] may follow [x] in a list sorted by descending count. *)
Definition count_desc (x y : string * N) : Prop := y.2 <= x.2.

(** Distance from the chunk index [i] to the next index equal to [k],
    counting modulo [C]. *)
Definition dist (C k i : nat) : nat := if (i <=? k)%nat then k - i else k + C - i.

(** The text after the first piece of [split_newline]: every further
    piece preceded by its line feed. *)
Fixpoint nl_join_tail (ps : list string) : string :=
  match ps with
  | [] => EmptyString
  | q :: qs => String "010"%char (q +:+ nl_join_tail qs)
  end.

(** A string made of whitespace characters only. *)
Fixpoint all_ws (s : string) : bool :=
  match s with
  | EmptyString => true
  | String c r => is_whitespace c && all_ws r
  end.

(** The sum of the counts of an entry list. *)
Definition sum_counts (es : list (string * N)) : N :=
  foldr (fun e acc => e.2 + acc) 0 es.

(** ** reduce_phase as a pool of workers (main.rs, lines 110-149)

    Worker loop: pop the last name of the shared queue under the lock (or
    stop on an empty queue), read that record file without the lock ([?]
    ends the worker with the error of a failed read), then merge the record
    into the shared aggregate holding the lock for the whole record, its
    entries visited in the record's [HashMap] order. *)
Inductive rworker :=
| RIdle
| RPopped (file_name : string)
| RRead (file_name : string) (word_counts : gmap string N)
| RFailed (e : io_error)
| RStopped.

Record rstate := {
  r_queue : list string;
  r_agg : gmap string N;
  r_workers : list rworker
}.

Inductive reduce_step (ac : access) (fs : fsys) : rstate -> rstate -> Prop :=
| rstep_pop s i q n :
    r_workers s !! i = Some RIdle ->
    r_queue s = q ++ [n] ->
    reduce_step ac fs s {| r_queue := q; r_agg := r_agg s;
                           r_workers := <[i := RPopped n]> (r_workers s) |}
| rstep_stop s i :
    r_workers s !! i = Some RIdle ->
    r_queue s = [] ->
    reduce_step ac fs s {| r_queue := r_queue s; r_agg := r_agg s;
                           r_workers := <[i := RStopped]> (r_workers s) |}
| rstep_read s i n r :
    r_workers s !! i = Some (RPopped n) ->
    read_map_result_io ac fs n = Ok r ->
    reduce_step ac fs s {| r_queue := r_queue s; r_agg := r_agg s;
                           r_workers := <[i := RRead n r]> (r_workers s) |}
| rstep_fail s i n e :
    r_workers s !! i = Some (RPopped n) ->
    read_map_result_io ac fs n = Err e ->
    reduce_step ac fs s {| r_queue := r_queue s; r_agg := r_agg s;
                           r_workers := <[i := RFailed e]> (r_workers s) |}
| rstep_merge s i n r es :
    r_workers s !! i = Some (RRead n r) ->
    es ≡ₚ map_to_list r ->
    reduce_step ac fs s {| r_queue := r_queue s; r_agg := merge_record (r_agg s) es;
                           r_workers := <[i := RIdle]> (r_workers s) |}.

Definition reduce_init (map_results : list string) (num_workers : nat) : rstate :=
  {| r_queue := map_results; r_agg := ∅; r_workers := replicate num_workers RIdle |}.

(** Every worker has left its loop, with [Ok] or with an error. *)
Definition reduce_done (s : rstate) : Prop :=
  Forall (fun w => w = RStopped \/ exists e, w = RFailed e) (r_workers s).

(** [handle.await??] over the handles in spawn order: the first worker
    that ended with an error decides the error returned. *)
Fixpoint join_reduce (ws : list rworker) : option io_error :=
  match ws with
  | [] => None
  | RFailed e :: _ => Some e
  | _ :: r => join_reduce r
  end.

Definition reduce_outcome (s : rstate) : io_result (gmap string N) :=
  match join_reduce (r_workers s) with
  | Some e => Err e
  | None => Ok (r_agg s)
  end.

(** [reduce_phase(map_results, num_workers)] may return [res] when a run of
    the pool over the file system [fs] reaches a joined state with that
    outcome.  The join loop returns at the first handle that failed, while
    later workers may still run; they change no file, and the outcome is
    the one of the state where they have finished too. *)
Definition reduce_phase (ac : access) (fs : fsys) (map_results : list string)
    (num_workers : nat) (res : io_result (gmap string N)) : Prop :=
  exists s, rtc (reduce_step ac fs) (reduce_init map_results num_workers) s /\
            reduce_done s /\ res = reduce_outcome s.

(** The name a reduce worker holds and has not yet merged. *)
Definition rheld (w : rworker) : list string :=
  match w with
  | RPopped n | RRead n _ => [n]
  | _ => []
  end.

Definition rfailed (w : rworker) : nat :=
  match w with
  | RFailed _ => 1
  | _ => 0
  end%nat.

(** What stays true along every run of the reduce pool over [fs] started
    from [reduce_init names num_workers]: each name is in the queue, held by
    a worker, merged, or lost by a failed worker (one name per failed
    worker, a file that does not read); the aggregate is the merge of the records
    merged so far, in that order. *)
Definition reduce_inv (ac : access) (fs : fsys) (names : list string) (num_workers : nat)
    (s : rstate) : Prop :=
  length (r_workers s) = num_workers /\
  exists merged order lost,
    names ≡ₚ r_queue s ++ merged ++ concat (rheld <$> r_workers s) ++ lost /\
    Forall2 (fun n es => exists r, read_map_result_io ac fs n = Ok r /\ es ≡ₚ map_to_list r)
      merged order /\
    r_agg s = reduce_records order /\
    Forall (fun n => exists e, read_map_result_io ac fs n = Err e) lost /\
    length lost = sum_list_with rfailed (r_workers s) /\
    Forall (fun w => match w with
                     | RRead n r => read_map_result_io ac fs n = Ok r
                     | RFailed e => exists n, n ∈ names /\ read_map_result_io ac fs n = Err e
                     | _ => True
                     end) (r_workers s) /\
    (RStopped ∈ r_workers s -> r_queue s = []).

(** What stays true along every run of the map pool started from
    [map_init chunks num_workers fs0]: the queue is a prefix of the chunks,
    a worker holds one of the chunks, the file of a worker that has written
    or reported holds the records of a chunk, a worker fails only when its
    file cannot be created, and no other file changes. *)
Definition map_files_inv (ac : access) (chunks : list string) (num_workers : nat) (fs0 : fsys)
    (s : mstate) : Prop :=
  length (m_workers s) = num_workers /\
  (exists rest, chunks = m_queue s ++ rest) /\
  (forall i text, m_workers s !! i = Some (Popped text) -> text ∈ chunks) /\
  (forall i, m_workers s !! i = Some Wrote \/ map_name i ∈ m_results s ->
     exists c es, c ∈ chunks /\ es ≡ₚ map_to_list (count_words c) /\
                  m_fs s !! map_name i = Some (render es)) /\
  (forall i e, m_workers s !! i = Some (Failed e) -> write_denied ac (map_name i) = Some e) /\
  (forall name, (forall k, (k < num_workers)%nat -> name <> map_name k) ->
     m_fs s !! name = fs0 !! name).

(** ** main (main.rs, lines 9-34)

    The constants of [main] and its runs: each [?] ends [main] with the
    error of the step that failed; [split_file] reads the lines of the
    input file; the aggregate is written, then printed, each visit in its
    own [HashMap] order; the cleanup always returns [Ok].  [mo_stdout] and
    [mo_stderr] are the lines the body of [main] prints (on an error the
    runtime then reports it on stderr). *)
Definition main_file_path : string := "shakes.txt".
Definition main_num_map_workers : nat := 4.
Definition main_num_reduce_workers : nat := 4.
Definition main_num_chunks : nat := 4.

Inductive main_result := MainOk | MainErr (e : io_error) | MainPanic.

Record main_out := {
  mo_result : main_result;
  mo_fs : fsys;
  mo_stdout : list string;
  mo_stderr : list string
}.

(** When [map_phase] returns its error, the workers still running go on
    until the runtime shuts down: the files are those of any later state
    of the pool. *)
Inductive main_run (ac : access) (fails : string -> bool) (fs : fsys) : main_out -> Prop :=
| main_read_err e :
    open_lines ac fs main_file_path = Err e ->
    main_run ac fails fs {| mo_result := MainErr e; mo_fs := fs;
                            mo_stdout := []; mo_stderr := [] |}
| main_split_panic ls :
    open_lines ac fs main_file_path = Ok ls ->
    split_file ls main_num_chunks = None ->
    main_run ac fails fs {| mo_result := MainPanic; mo_fs := fs;
                            mo_stdout := []; mo_stderr := [] |}
| main_map_err ls chunks s s' e :
    open_lines ac fs main_file_path = Ok ls ->
    split_file ls main_num_chunks = Some chunks ->
    rtc (map_step ac) (map_init chunks main_num_map_workers fs) s ->
    map_join_err (m_workers s) e ->
    rtc (map_step ac) s s' ->
    main_run ac fails fs {| mo_result := MainErr e; mo_fs := m_fs s';
                            mo_stdout := []; mo_stderr := [] |}
| main_reduce_err ls chunks s e :
    open_lines ac fs main_file_path = Ok ls ->
    split_file ls main_num_chunks = Some chunks ->
    map_phase ac chunks main_num_map_workers fs s ->
    reduce_phase ac (m_fs s) (m_results s) main_num_reduce_workers (Err e) ->
    main_run ac fails fs {| mo_result := MainErr e; mo_fs := m_fs s;
                            mo_stdout := []; mo_stderr := [] |}
| main_write_err ls chunks s agg e :
    open_lines ac fs main_file_path = Ok ls ->
    split_file ls main_num_chunks = Some chunks ->
    map_phase ac chunks main_num_map_workers fs s ->
    reduce_phase ac (m_fs s) (m_results s) main_num_reduce_workers (Ok agg) ->
    write_denied ac final_file = Some e ->
    main_run ac fails fs {| mo_result := MainErr e; mo_fs := m_fs s;
                            mo_stdout := []; mo_stderr := [] |}
| main_ok ls chunks s agg es es' :
    open_lines ac fs main_file_path = Ok ls ->
    split_file ls main_num_chunks = Some chunks ->
    map_phase ac chunks main_num_map_workers fs s ->
    reduce_phase ac (m_fs s) (m_results s) main_num_reduce_workers (Ok agg) ->
    write_denied ac final_file = None ->
    es ≡ₚ map_to_list agg ->
    es' ≡ₚ map_to_list agg ->
    main_run ac fails fs
      {| mo_result := MainOk;
         mo_fs := co_fs (cleanup_intermediate_files fails
                           (write_final_result (m_fs s) es) (m_results s));
         mo_stdout := print_top_words es' 10;
         mo_stderr := co_stderr (cleanup_intermediate_files fails
                                   (write_final_result (m_fs s) es) (m_results s)) |}.

(** No path is denied. *)
Definition full_access : access :=
  {| read_denied := fun _ => None; write_denied := fun _ => None |}.

(** * Proofs *)

Lemma string_app_cons (c : ascii) (s t : string) :
  String c s +:+ t = String c (s +:+ t).
Proof. reflexivity. Qed.

Lemma string_app_nil_l (t : string) : EmptyString +:+ t = t.
Proof. reflexivity. Qed.

Lemma string_app_assoc (a b c : string) : (a +:+ b) +:+ c = a +:+ (b +:+ c).
Proof. induction a; [done|]. rewrite !string_app_cons. congruence. Qed.

Lemma string_app_nil_r (a : string) : a +:+ EmptyString = a.
Proof. induction a; [done|]. rewrite string_app_cons. congruence. Qed.

Lemma nl_concat_cons (l : string) (ls : list string) :
  nl_concat (l :: ls) = (l +:+ String "010"%char EmptyString) +:+ nl_concat ls.
Proof.
  unfold nl_concat. simpl. destruct ls; simpl; [by rewrite string_app_nil_r|done].
Qed.

(** *** split_file *)

Section SplitFile.
Variable C : nat.
Hypothesis HC : (0 < C)%nat.


Lemma next_index_spec (i : nat) :
  (i < C)%nat ->
  next_index C i = Some (if (i + 1 =? C)%nat then 0%nat else (i + 1)%nat).
Proof.
  intros Hi. unfold next_index.
  destruct (Nat.eqb_spec C 0); [lia|].
  f_equal. destruct (Nat.eqb_spec (i + 1) C) as [->|Hne].
  - apply Nat.Div0.mod_same.
  - apply Nat.mod_small. lia.
Qed.

Lemma split_run_inv (ls : list string) (chunks : list string) (i : nat) :
  length chunks = C -> (i < C)%nat ->
  exists chunks' i',
    split_run C (chunks, i) ls = Some (chunks', i') /\ (i' < C)%nat /\
    length chunks' = C /\
    forall k, (k < C)%nat ->
      chunks' !! k = (fun s => s +:+ nl_concat (every_nth C (dist C k i) ls)) <$> chunks !! k.
Proof.
  revert chunks i. induction ls as [|x r IH]; intros chunks i Hlen Hi.
  - exists chunks, i. split_and!; try done.
    intros k Hk. destruct (chunks !! k) eqn:E; simpl; [|done].
    destruct (every_nth C (dist C k i) []); simpl; by rewrite ?string_app_nil_r.
  - simpl. destruct (lookup_lt_is_Some_2 chunks i) as [s Hs]; [lia|].
    rewrite Hs, next_index_spec by done.
    set (i1 := if (i + 1 =? C)%nat then 0%nat else (i + 1)%nat).
    assert (Hi1 : (i1 < C)%nat).
    { unfold i1. destruct (Nat.eqb_spec (i + 1) C); lia. }
    destruct (IH (<[i := (s +:+ x) +:+ String "010"%char EmptyString]> chunks) i1)
      as (chunks' & i' & Hrun & Hi' & Hlen' & Hk'); [by rewrite length_insert|done|].
    exists chunks', i'. split_and!; try done.
    intros k Hk. rewrite Hk' by done.
    destruct (decide (k = i)) as [->|Hne].
    + rewrite list_lookup_insert_eq by lia. rewrite Hs. simpl.
      assert (Hd : dist C i i = 0%nat) by (unfold dist; rewrite Nat.leb_refl; lia).
      assert (Hd1 : dist C i i1 = (C - 1)%nat).
      { unfold dist, i1. destruct (Nat.eqb_spec (i + 1) C);
          [destruct (Nat.leb_spec 0 i); lia|destruct (Nat.leb_spec (i + 1) i); lia]. }
      rewrite Hd, Hd1. simpl. rewrite nl_concat_cons, !string_app_assoc. done.
    + rewrite list_lookup_insert_ne by lia.
      destruct (dist C k i) as [|d'] eqn:Hd.
      { exfalso. unfold dist in Hd. destruct (Nat.leb_spec i k); lia. }
      assert (Hd1 : dist C k i1 = d').
      { unfold dist, i1 in *. destruct (Nat.eqb_spec (i + 1) C);
          destruct (Nat.leb_spec i k); destruct (Nat.leb_spec 0 k);
          destruct (Nat.leb_spec (i + 1) k); lia. }
      by rewrite Hd1.
Qed.

Lemma every_nth_lookup (ls : list string) (d q : nat) :
  every_nth C d ls !! q = ls !! (d + q * C)%nat.
Proof.
  revert d q. induction ls as [|x r IH]; intros d q; simpl; [done|].
  destruct d as [|d'].
  - destruct q as [|q']; simpl; [done|].
    rewrite IH. replace (C + q' * C)%nat with (S (C - 1 + q' * C)) by lia.
    done.
  - rewrite IH. done.
Qed.

Lemma every_nth_nil (ls : list string) (d : nat) :
  (length ls <= d)%nat -> every_nth C d ls = [].
Proof.
  revert d. induction ls as [|x r IH]; intros d Hd; simpl in *; [done|].
  destruct d as [|d']; [lia|]. apply IH. lia.
Qed.

End SplitFile.

Lemma split_file_run (ls : list string) (num_chunks : nat) :
  (0 < num_chunks)%nat ->
  exists chunks chunk_index,
    split_run num_chunks (replicate num_chunks EmptyString, 0%nat) ls
      = Some (chunks, chunk_index) /\
    (chunk_index < num_chunks)%nat /\ length chunks = num_chunks /\
    forall k, (k < num_chunks)%nat ->
      chunks !! k = Some (nl_concat (every_nth num_chunks k ls)).
Proof.
  intros Hpos.
  destruct (split_run_inv num_chunks Hpos ls (replicate num_chunks EmptyString) 0)
    as (chunks & i & Hrun & Hi & Hlen & Hk); [by rewrite length_replicate|done|].
  exists chunks, i. split_and!; try done.
  intros k Hk'. rewrite Hk by done. rewrite lookup_replicate_2 by done. simpl.
  rewrite string_app_nil_l.
  replace (dist num_chunks k 0) with k; [done|unfold dist; simpl; lia].
Qed.

(** C10: with [num_chunks > 0], every iteration of the loop of
    [split_file] indexes [chunks] in bounds and computes its remainder by a
    non-zero divisor: after any number [k] of lines the run has not
    panicked, [chunk_index < num_chunks], [chunks[chunk_index]] exists and
    [(chunk_index + 1) % num_chunks] is defined; the whole call succeeds. *)
Theorem split_file_index_in_bounds (ls : list string) (num_chunks : nat)
    (Hpos : (0 < num_chunks)%nat) :
  split_file ls num_chunks <> None /\
  forall k : nat,
    exists chunks chunk_index,
      split_run num_chunks (replicate num_chunks EmptyString, 0%nat) (take k ls)
        = Some (chunks, chunk_index) /\
      (chunk_index < num_chunks)%nat /\ length chunks = num_chunks /\
      is_Some (chunks !! chunk_index) /\ next_index num_chunks chunk_index <> None.
Proof.
  split.
  - unfold split_file.
    destruct (split_file_run ls num_chunks Hpos) as (chunks & i & -> & _).
    done.
  - intros k.
    destruct (split_file_run (take k ls) num_chunks Hpos)
      as (chunks & i & Hrun & Hi & Hlen & _).
    exists chunks, i. split_and!; try done.
    + apply lookup_lt_is_Some_2. lia.
    + rewrite next_index_spec by done. done.
Qed.

Lemma split_file_index_in_bounds_witness :
  (0 < 3)%nat /\ split_file ["a"; "b"; "c"; "d"] 3 <> None.
Proof.
  split; [lia|].
  apply (proj1 (split_file_index_in_bounds ["a"; "b"; "c"; "d"] 3 ltac:(lia))).
Defined.

(** C3: for [C > 0], [split_file] returns exactly [C] chunks; chunk [k]
    is the text of the input lines at positions [k], [k + C], [k + 2C], ...
    (each followed by a line feed), so input line [i] goes to chunk
    [i mod C] and chunks are empty when there are fewer lines than [C];
    and input line [i] is line [i / C] of chunk [i mod C], so putting the
    chunks' lines back in order of their original index gives the input. *)
Theorem split_file_round_robin (ls : list string) (num_chunks : nat)
    (Hpos : (0 < num_chunks)%nat) :
  exists chunks,
    split_file ls num_chunks = Some chunks /\
    length chunks = num_chunks /\
    (forall k, (k < num_chunks)%nat ->
       chunks !! k = Some (nl_concat (every_nth num_chunks k ls))) /\
    (forall k, (length ls <= k < num_chunks)%nat -> chunks !! k = Some EmptyString) /\
    (forall i : nat,
       ls !! i = every_nth num_chunks (i mod num_chunks)%nat ls !! (i / num_chunks)%nat).
Proof.
  destruct (split_file_run ls num_chunks Hpos) as (chunks & i & Hrun & Hi & Hlen & Hk).
  exists chunks. unfold split_file. rewrite Hrun. split_and!; try done.
  - intros k Hk'. rewrite Hk by lia. rewrite every_nth_nil by lia. done.
  - intros j. rewrite (every_nth_lookup num_chunks Hpos). f_equal.
    pose proof (Nat.div_mod_eq j num_chunks). lia.
Qed.

Lemma split_file_round_robin_witness :
  (0 < 2)%nat /\
  exists chunks,
    split_file ["a b"; "b c"; "d"] 2 = Some chunks /\ length chunks = 2%nat.
Proof.
  split; [lia|].
  destruct (split_file_round_robin ["a b"; "b c"; "d"] 2 ltac:(lia))
    as (chunks & H1 & H2 & _).
  exists chunks. done.
Defined.

(** *** Merging and the reduce phase *)

Lemma usize_bound_nz : usize_bound <> 0.
Proof. unfold usize_bound. lia. Qed.

Lemma sum_key_notin (w : string) (es : list (string * N)) :
  w ∉ es.*1 -> sum_key w es = 0.
Proof.
  induction es as [|[k c] es IH]; intros Hw; simpl; [done|].
  rewrite fmap_cons in Hw. simpl in Hw.
  destruct (decide (k = w)); [set_solver|]. rewrite IH by set_solver. done.
Qed.

Lemma merge_record_cons (agg : gmap string N) (e : string * N) (es : list (string * N)) :
  merge_record agg (e :: es) = merge_record (merge_entry agg e) es.
Proof. reflexivity. Qed.

Lemma sum_key_cons (w k : string) (c : N) (es : list (string * N)) :
  sum_key w ((k, c) :: es) = (if decide (k = w) then c else 0) + sum_key w es.
Proof. reflexivity. Qed.

Lemma merge_record_lookup (agg : gmap string N) (es : list (string * N)) (w : string) :
  merge_record agg es !! w =
    if decide (w ∈ es.*1)
    then Some ((default 0 (agg !! w) + sum_key w es) mod usize_bound)
    else agg !! w.
Proof.
  revert agg. induction es as [|[k c] es IH]; intros agg.
  - destruct (decide (w ∈ [].*1)) as [Hin|]; [set_solver|done].
  - rewrite merge_record_cons, IH, sum_key_cons.
    destruct (decide (w ∈ ((k, c) :: es).*1)) as [Hin'|Hin'];
      rewrite fmap_cons in Hin'; simpl in Hin';
      unfold merge_entry, usize_add; simpl.
    + destruct (decide (k = w)) as [->|Hne].
      * rewrite lookup_insert_eq. simpl.
        destruct (decide (w ∈ es.*1)) as [Hin|Hin].
        -- f_equal. rewrite N.Div0.add_mod_idemp_l. f_equal; lia.
        -- rewrite sum_key_notin by done. f_equal; f_equal; lia.
      * rewrite lookup_insert_ne by done.
        destruct (decide (w ∈ es.*1)) as [Hin|Hin]; [done|set_solver].
    + destruct (decide (k = w)) as [->|Hne]; [set_solver|].
      rewrite lookup_insert_ne by done.
      destruct (decide (w ∈ es.*1)) as [Hin|Hin]; [set_solver|done].
Qed.

Lemma reduce_from_lookup (agg : gmap string N) (order : list (list (string * N))) (w : string) :
  foldl merge_record agg order !! w =
    if decide (Exists (fun es => w ∈ es.*1) order)
    then Some ((default 0 (agg !! w) + sum_keys w order) mod usize_bound)
    else agg !! w.
Proof.
  revert agg. induction order as [|es order IH]; intros agg.
  - destruct (decide (Exists (fun es => w ∈ es.*1) [])) as [H|]; [inversion H|done].
  - simpl. rewrite IH, merge_record_lookup.
    destruct (decide (Exists (fun es => w ∈ es.*1) (es :: order))) as [Hex|Hex];
      rewrite Exists_cons in Hex.
    + destruct (decide (Exists (fun es => w ∈ es.*1) order)) as [Ho|Ho];
        destruct (decide (w ∈ es.*1)) as [He|He]; simpl.
      * f_equal. rewrite N.Div0.add_mod_idemp_l. f_equal; lia.
      * rewrite (sum_key_notin w es He). f_equal; f_equal; lia.
      * assert (Hz : sum_keys w order = 0).
        { clear -Ho. induction order as [|es' order IHo]; [done|].
          rewrite Exists_cons in Ho. simpl.
          rewrite sum_key_notin by naive_solver. rewrite IHo by naive_solver. done. }
        rewrite Hz. f_equal; f_equal; lia.
      * naive_solver.
    + destruct (decide (Exists (fun es => w ∈ es.*1) order)) as [Ho|Ho]; [naive_solver|].
      destruct (decide (w ∈ es.*1)) as [He|He]; [naive_solver|done].
Qed.

Lemma sum_key_perm (w : string) (es es' : list (string * N)) :
  es ≡ₚ es' -> sum_key w es = sum_key w es'.
Proof. induction 1 as [| |[k c] [k' c'] l| ]; simpl; lia. Qed.

Lemma keys_perm (w : string) (es es' : list (string * N)) :
  es ≡ₚ es' -> w ∈ es.*1 <-> w ∈ es'.*1.
Proof. intros Hp. by apply elem_of_Permutation_proper, fmap_Permutation. Qed.

Lemma sum_key_map_to_list (w : string) (r : gmap string N) :
  sum_key w (map_to_list r) = default 0 (r !! w).
Proof.
  induction r as [|k c r Hk IH] using map_ind.
  - by rewrite map_to_list_empty.
  - rewrite (sum_key_perm w _ ((k, c) :: map_to_list r)) by by apply map_to_list_insert.
    rewrite sum_key_cons, IH.
    destruct (decide (k = w)) as [->|Hne].
    + rewrite lookup_insert_eq, Hk. simpl. lia.
    + rewrite lookup_insert_ne by done. lia.
Qed.

Lemma keys_map_to_list (w : string) (r : gmap string N) :
  w ∈ (map_to_list r).*1 <-> is_Some (r !! w).
Proof.
  rewrite list_elem_of_fmap. split.
  - intros ([k c] & -> & Hin). apply elem_of_map_to_list in Hin. simpl. by eexists.
  - intros [c Hc]. exists (w, c). split; [done|]. by apply elem_of_map_to_list.
Qed.

Lemma iteration_order_sum (w : string) (order : list (list (string * N)))
    (recs : list (gmap string N)) :
  Forall2 (fun es r => es ≡ₚ map_to_list r) order recs ->
  sum_keys w order = total w recs /\
  (Exists (fun es => w ∈ es.*1) order <-> Exists (fun r => is_Some (r !! w)) recs).
Proof.
  induction 1 as [|es r order recs Hes _ [IHs IHe]]; simpl.
  - split; [done|]. split; intros H; inversion H.
  - rewrite (sum_key_perm w es _ Hes), sum_key_map_to_list, IHs. split; [done|].
    rewrite !Exists_cons, (keys_perm w es _ Hes), keys_map_to_list, IHe. done.
Qed.

Lemma total_perm (w : string) (recs recs' : list (gmap string N)) :
  recs ≡ₚ recs' -> total w recs = total w recs'.
Proof. induction 1; simpl; lia. Qed.

Lemma Exists_perm {A} (P : A -> Prop) (l l' : list A) :
  l ≡ₚ l' -> Exists P l <-> Exists P l'.
Proof.
  intros Hp. rewrite !Exists_exists.
  split; intros (x & Hx & HP); exists x; split; try done.
  - by rewrite <- Hp.
  - by rewrite Hp.
Qed.

Lemma count_tokens_merge (ws : list string) : count_tokens ws = merge_record ∅ (ones ws).
Proof.
  unfold count_tokens, merge_record, ones. generalize (∅ : gmap string N).
  induction ws as [|w ws IH]; intros agg; simpl; [done|]. apply IH.
Qed.

Lemma keys_ones (ws : list string) : (ones ws).*1 = ws.
Proof. unfold ones. induction ws as [|w ws IH]; simpl; [done|]. f_equal. exact IH. Qed.

Lemma merge_record_concat (agg : gmap string N) (order : list (list (string * N))) :
  merge_record agg (concat order) = foldl merge_record agg order.
Proof.
  revert agg. induction order as [|es order IH]; intros agg; simpl; [done|].
  unfold merge_record at 1. rewrite foldl_app. apply IH.
Qed.

Lemma ones_concat (ts : list (list string)) : ones (concat ts) = concat (ones <$> ts).
Proof.
  unfold ones. induction ts as [|t ts IH]; simpl; [done|].
  by rewrite fmap_app, IH.
Qed.

Lemma count_tokens_lookup (ws : list string) (w : string) :
  default 0 (count_tokens ws !! w) = sum_key w (ones ws) mod usize_bound /\
  (is_Some (count_tokens ws !! w) <-> w ∈ (ones ws).*1).
Proof.
  rewrite count_tokens_merge, merge_record_lookup, lookup_empty. simpl.
  destruct (decide (w ∈ (ones ws).*1)) as [Hin|Hin].
  - split; [done|]. split; [done|]. intros _. by eexists.
  - rewrite sum_key_notin by done. split; [done|]. split; [by intros [? ?]|done].
Qed.

Lemma reduce_records_lookup (recs recs' : list (gmap string N))
    (order : list (list (string * N))) (w : string) :
  recs' ≡ₚ recs ->
  Forall2 (fun es r => es ≡ₚ map_to_list r) order recs' ->
  reduce_records order !! w =
    if decide (Exists (fun r => is_Some (r !! w)) recs)
    then Some (total w recs mod usize_bound) else None.
Proof.
  intros Hperm Hiter.
  unfold reduce_records. rewrite reduce_from_lookup, lookup_empty. simpl.
  destruct (iteration_order_sum w order recs' Hiter) as [Hs He].
  rewrite Hs, (total_perm w recs' recs Hperm).
  pose proof (Exists_perm (fun r => is_Some (r !! w)) recs' recs Hperm) as Hp.
  destruct (decide (Exists (fun es => w ∈ es.*1) order)) as [Ho|Ho];
    destruct (decide (Exists (fun r => is_Some (r !! w)) recs)) as [Hr|Hr];
    naive_solver.
Qed.

Lemma total_cons (w : string) (r : gmap string N) (recs : list (gmap string N)) :
  total w (r :: recs) = default 0 (r !! w) + total w recs.
Proof. reflexivity. Qed.

Lemma sum_keys_cons (w : string) (es : list (string * N)) (order : list (list (string * N))) :
  sum_keys w (es :: order) = sum_key w es + sum_keys w order.
Proof. reflexivity. Qed.

Lemma count_tokens_records (ts : list (list string)) (w : string) :
  (total w (count_tokens <$> ts) mod usize_bound = sum_keys w (ones <$> ts) mod usize_bound) /\
  (Exists (fun r => is_Some (r !! w)) (count_tokens <$> ts) <->
   Exists (fun es => w ∈ es.*1) (ones <$> ts)).
Proof.
  induction ts as [|t ts [IHs IHe]].
  - split; [done|]. split; intros H; inversion H.
  - destruct (count_tokens_lookup t w) as [Hd Hi].
    rewrite !fmap_cons, !Exists_cons, Hi, IHe. split; [|done].
    rewrite total_cons, sum_keys_cons, Hd.
    rewrite <- N.Div0.add_mod_idemp_r, IHs, N.Div0.add_mod_idemp_r.
    rewrite N.Div0.add_mod_idemp_l. done.
Qed.

(** C1: whatever the order in which the reduce workers take the lock, and
    whatever order each record's [HashMap] iteration visits its entries,
    the aggregate maps a token to the sum of its counts over all records
    (an absent token is inserted with the record's count), wrapped to
    [usize] as [+=] does, and has no other key; when that sum fits in a
    [usize] it is the sum itself; and when the records count token lists
    [ts], the aggregate is exactly the count of the whole multiset
    [concat ts]. *)
Theorem reduce_phase_merge_sum (recs recs' : list (gmap string N))
    (order : list (list (string * N)))
    (Hperm : recs' ≡ₚ recs)
    (Hiter : Forall2 (fun es r => es ≡ₚ map_to_list r) order recs') :
  (forall w, reduce_records order !! w =
     if decide (Exists (fun r => is_Some (r !! w)) recs)
     then Some (total w recs mod usize_bound) else None) /\
  (forall w, Exists (fun r => is_Some (r !! w)) recs -> total w recs < usize_bound ->
     reduce_records order !! w = Some (total w recs)) /\
  (forall ts, recs = count_tokens <$> ts ->
     reduce_records order = count_tokens (concat ts)).
Proof.
  split_and!.
  - intros w. by apply (reduce_records_lookup recs recs').
  - intros w Hex Hlt. rewrite (reduce_records_lookup recs recs') by done.
    rewrite decide_True by done. by rewrite N.mod_small.
  - intros ts ->. apply map_eq. intros w.
    rewrite (reduce_records_lookup _ recs') by done.
    rewrite count_tokens_merge, ones_concat, merge_record_concat.
    rewrite reduce_from_lookup, lookup_empty. simpl.
    destruct (count_tokens_records ts w) as [Hs He].
    rewrite Hs.
    destruct (decide (Exists (fun r => is_Some (r !! w)) (count_tokens <$> ts))) as [H1|H1];
      destruct (decide (Exists (fun es => w ∈ es.*1) (ones <$> ts))) as [H2|H2];
      naive_solver.
Qed.

Lemma reduce_phase_merge_sum_witness :
  reduce_records [map_to_list (count_words "b c"); map_to_list (count_words "a b")]
    = count_tokens (concat [["a"; "b"]; ["b"; "c"]]).
Proof.
  apply (reduce_phase_merge_sum
           [count_tokens ["a"; "b"]; count_tokens ["b"; "c"]]
           [count_tokens ["b"; "c"]; count_tokens ["a"; "b"]]).
  - apply Permutation_swap.
  - constructor; [reflexivity|]. constructor; [reflexivity|]. constructor.
  - reflexivity.
Defined.

(** *** count_words *)

Lemma pieces_cons (s : string) : exists p ps, split_ws_pieces s = p :: ps.
Proof.
  induction s as [|c r (p & ps & IH)]; simpl; [by eexists _, _|].
  rewrite IH. destruct (is_whitespace c); by eexists _, _.
Qed.

Lemma pieces_ws (c : ascii) (r : string) :
  is_whitespace c = true -> split_ws_pieces (String c r) = EmptyString :: split_ws_pieces r.
Proof.
  intros Hc. simpl. destruct (pieces_cons r) as (p & ps & ->). by rewrite Hc.
Qed.

Lemma pieces_app_word (t s : string) :
  no_ws t = true ->
  split_ws_pieces (t +:+ s) =
    match split_ws_pieces s with
    | [] => []
    | p :: ps => (t +:+ p) :: ps
    end.
Proof.
  induction t as [|c t IH]; intros Ht.
  - rewrite string_app_nil_l. destruct (split_ws_pieces s); reflexivity.
  - simpl in Ht. apply andb_prop in Ht as [Hc Ht].
    rewrite string_app_cons. simpl. rewrite IH by done.
    destruct (pieces_cons s) as (p & ps & ->).
    apply negb_true_iff in Hc. by rewrite Hc.
Qed.

Lemma pieces_no_ws (s : string) : Forall (fun p => no_ws p = true) (split_ws_pieces s).
Proof.
  induction s as [|c r IH]; simpl; [by repeat constructor|].
  destruct (split_ws_pieces r) as [|t ts]; [done|].
  inversion IH as [|? ? Ht Hts]; subst.
  destruct (is_whitespace c) eqn:Hc; repeat constructor; try done.
  simpl. by rewrite Hc, Ht.
Qed.

Lemma split_whitespace_ws (c : ascii) (s : string) :
  is_whitespace c = true -> split_whitespace (String c s) = split_whitespace s.
Proof.
  intros Hc. unfold split_whitespace. rewrite pieces_ws by done.
  rewrite filter_cons_False; [done|]. by intros [].
Qed.

Lemma split_whitespace_word (t s : string) :
  t <> EmptyString -> no_ws t = true ->
  (s = EmptyString \/ exists c r, s = String c r /\ is_whitespace c = true) ->
  split_whitespace (t +:+ s) = t :: split_whitespace s.
Proof.
  intros Hne Ht Hs. unfold split_whitespace. rewrite pieces_app_word by done.
  destruct Hs as [->|(c & r & -> & Hc)].
  - simpl. rewrite string_app_nil_r, filter_cons_True by done.
    rewrite filter_cons_False; [done|]. by intros [].
  - rewrite (pieces_ws c r Hc), string_app_nil_r.
    rewrite filter_cons_True by done. rewrite (filter_cons_False _ EmptyString); [done|].
    by intros [].
Qed.

Lemma split_whitespace_tokens (s : string) :
  Forall (fun t => t <> EmptyString /\ no_ws t = true) (split_whitespace s).
Proof.
  unfold split_whitespace. apply Forall_forall. intros t Ht.
  apply list_elem_of_filter in Ht as [Hne Ht]. split; [done|].
  by apply (proj1 (Forall_forall _ _) (pieces_no_ws s)).
Qed.

Lemma split_whitespace_length (s : string) :
  (length (split_whitespace s) <= String.length s)%nat.
Proof.
  unfold split_whitespace.
  induction s as [|c r IH]; simpl; [done|].
  destruct (pieces_cons r) as (t & ts & Hr). rewrite Hr in IH |- *.
  destruct (is_whitespace c).
  - rewrite filter_cons_False by (by intros []). lia.
  - rewrite filter_cons_True by done.
    destruct (decide (t = EmptyString)) as [->|Ht].
    + rewrite filter_cons_False in IH by (by intros []). simpl. lia.
    + rewrite filter_cons_True in IH by done. simpl in *. lia.
Qed.

Lemma sum_key_ones (w : string) (ws : list string) :
  sum_key w (ones ws) = N.of_nat (length (filter (fun t => t = w) ws)).
Proof.
  induction ws as [|t ws IH]; [done|].
  unfold ones in *. rewrite fmap_cons, sum_key_cons, IH.
  destruct (decide (t = w)) as [->|Hne].
  - rewrite filter_cons_True by done. simpl. lia.
  - rewrite filter_cons_False by done. lia.
Qed.

(** C4: [count_words] splits on runs of whitespace (leading whitespace is
    skipped; a maximal run of non-whitespace characters is one token; no
    other character is removed), every token is non-empty and free of
    whitespace, and each key of the result is a lowercased token whose
    count is its number of occurrences among the lowercased tokens; tokens
    differing only by case share a key, as in ["The the THE"].  The text
    of a Rust [&str] is shorter than [2^64] bytes, so no count wraps. *)
Theorem count_words_spec (text : string)
    (Hlen : N.of_nat (String.length text) < usize_bound) :
  split_whitespace EmptyString = [] /\
  (forall c s, is_whitespace c = true ->
     split_whitespace (String c s) = split_whitespace s) /\
  (forall t s, t <> EmptyString -> no_ws t = true ->
     (s = EmptyString \/ exists c r, s = String c r /\ is_whitespace c = true) ->
     split_whitespace (t +:+ s) = t :: split_whitespace s) /\
  Forall (fun t => t <> EmptyString /\ no_ws t = true) (split_whitespace text) /\
  (forall w, count_words text !! w =
     if decide (w ∈ map to_lowercase (split_whitespace text))
     then Some (N.of_nat (length (filter (fun t => t = w)
                                   (map to_lowercase (split_whitespace text)))))
     else None) /\
  count_words "The the THE" = {[ "the" := 3 ]}.
Proof.
  split_and!.
  - reflexivity.
  - apply split_whitespace_ws.
  - intros t s Hne Ht Hs. by apply split_whitespace_word.
  - apply split_whitespace_tokens.
  - intros w. unfold count_words.
    rewrite count_tokens_merge, merge_record_lookup, keys_ones, lookup_empty, sum_key_ones.
    destruct (decide _); [|done]. simpl. f_equal.
    apply N.mod_small.
    pose proof (split_whitespace_length text).
    pose proof (length_filter (fun t => t = w) (map to_lowercase (split_whitespace text))).
    rewrite length_map in *. lia.
  - reflexivity.
Qed.

Lemma count_words_spec_witness :
  N.of_nat (String.length "The the THE") < usize_bound /\
  count_words "The the THE" !! "the" = Some 3.
Proof.
  assert (Hlen : N.of_nat (String.length "The the THE") < usize_bound)
    by (vm_compute; reflexivity).
  split; [exact Hlen|].
  destruct (count_words_spec "The the THE" Hlen) as (_ & _ & _ & _ & Hc & _).
  rewrite Hc. reflexivity.
Defined.

(** *** Intermediate records: writing and reading back *)

Lemma no_ws_no_lf (s : string) : no_ws s = true -> no_lf s = true.
Proof.
  induction s as [|c r IH]; simpl; [done|].
  intros [Hc Hr]%andb_prop. rewrite IH by done.
  destruct (Ascii.eqb_spec c "010"%char) as [->|]; [done|done].
Qed.

Lemma split_newline_cons (s : string) : exists p ps, split_newline s = p :: ps.
Proof.
  induction s as [|c r (p & ps & IH)]; simpl; [by eexists _, _|].
  rewrite IH. destruct (Ascii.eqb c "010"%char); by eexists _, _.
Qed.

Lemma split_newline_line (a s : string) :
  no_lf a = true ->
  split_newline (a +:+ String "010"%char s) = a :: split_newline s.
Proof.
  induction a as [|c a IH]; intros Ha.
  - rewrite string_app_nil_l. simpl.
    destruct (split_newline_cons s) as (p & ps & ->). done.
  - simpl in Ha. apply andb_prop in Ha as [Hc Ha].
    rewrite string_app_cons. simpl. rewrite IH by done.
    apply negb_true_iff in Hc. by rewrite Hc.
Qed.

Lemma string_concat_cons (x : string) (l : list string) :
  String.concat EmptyString (x :: l) = x +:+ String.concat EmptyString l.
Proof. destruct l; simpl; [by rewrite string_app_nil_r|reflexivity]. Qed.

Lemma record_line_body (e : string * N) :
  record_line e = record_body e +:+ String "010"%char EmptyString.
Proof. unfold record_line, record_body. rewrite string_app_assoc. reflexivity. Qed.

Lemma no_ws_string_of_uint (u : Decimal.uint) : no_ws (NilEmpty.string_of_uint u) = true.
Proof. induction u; simpl; done. Qed.

Lemma to_uint_nonnil (c : N) : N.to_uint c <> Decimal.Nil.
Proof. destruct c as [|p]; [discriminate|apply DecimalPos.Unsigned.to_uint_nonnil]. Qed.

Lemma show_usize_shape (c : N) :
  show_usize c <> EmptyString /\ no_ws (show_usize c) = true.
Proof.
  unfold show_usize. pose proof (to_uint_nonnil c) as Hn.
  destruct (N.to_uint c) as [|u|u|u|u|u|u|u|u|u|u]; [done|..];
    (split; [discriminate|]); simpl; apply no_ws_string_of_uint.
Qed.

Lemma parse_usize_show (c : N) : c < usize_bound -> parse_usize (show_usize c) = Some c.
Proof.
  intros Hc. pose proof (to_uint_nonnil c) as Hn.
  pose proof (DecimalN.Unsigned.of_to c) as Ho.
  assert (Hm : match show_usize c with
               | String "+"%char r => r
               | _ => show_usize c
               end = show_usize c).
  { unfold show_usize.
    destruct (N.to_uint c) as [|u|u|u|u|u|u|u|u|u|u]; [done|..]; reflexivity. }
  unfold parse_usize. rewrite Hm. unfold show_usize at 1.
  rewrite NilZero.usu by done. rewrite Ho.
  by rewrite (proj2 (N.ltb_lt c usize_bound) Hc).
Qed.

Lemma strip_cr_app (a b : string) :
  b <> EmptyString -> strip_cr (a +:+ b) = a +:+ strip_cr b.
Proof.
  intros Hb. induction a as [|c a IH]; [done|].
  rewrite !string_app_cons, <- IH.
  destruct (a +:+ b) eqn:E; [|reflexivity].
  destruct a; [|discriminate]. rewrite string_app_nil_l in E. done.
Qed.

Lemma strip_cr_no_ws (s : string) : no_ws s = true -> strip_cr s = s.
Proof.
  induction s as [|c r IH]; intros Hs; [done|].
  simpl in Hs. apply andb_prop in Hs as [Hc Hr]. apply negb_true_iff in Hc.
  destruct r as [|c' r'].
  - simpl. destruct (Ascii.eqb_spec c "013"%char) as [->|]; [discriminate|done].
  - change (strip_cr (String c (String c' r'))) with (String c (strip_cr (String c' r'))).
    by rewrite IH.
Qed.

Lemma strip_cr_body (e : string * N) : strip_cr (record_body e) = record_body e.
Proof.
  unfold record_body. destruct (show_usize_shape e.2) as [Hne Hws].
  rewrite strip_cr_app by discriminate. f_equal.
  destruct (show_usize e.2) as [|c r] eqn:E; [done|].
  change (strip_cr (String " "%char (String c r))) with (String " "%char (strip_cr (String c r))).
  by rewrite strip_cr_no_ws.
Qed.

Lemma split_newline_render (es : list (string * N)) :
  Forall (fun e => no_ws e.1 = true) es ->
  split_newline (render es) = map record_body es ++ [EmptyString].
Proof.
  induction 1 as [|e es He _ IH]; [done|].
  unfold render in *. simpl map. rewrite string_concat_cons, record_line_body.
  rewrite string_app_assoc, string_app_cons, string_app_nil_l.
  rewrite split_newline_line, IH; [done|].
  unfold record_body. clear -He.
  destruct (show_usize_shape e.2) as [_ Hws].
  induction (e.1) as [|c r IH]; simpl in *.
  - by apply no_ws_no_lf.
  - apply andb_prop in He as [Hc Hr]. rewrite IH by done.
    destruct (Ascii.eqb_spec c "010"%char) as [->|]; [discriminate|done].
Qed.

Lemma lines_render (es : list (string * N)) :
  Forall (fun e => no_ws e.1 = true) es ->
  lines (render es) = map record_body es.
Proof.
  intros Hes. unfold lines. rewrite split_newline_render by done.
  rewrite removelast_last, last_last. simpl. rewrite app_nil_r.
  rewrite map_map. apply map_ext. apply strip_cr_body.
Qed.

Lemma parse_line_body (e : string * N) :
  e.1 <> EmptyString -> no_ws e.1 = true -> e.2 < usize_bound ->
  parse_line (record_body e) = Some e.
Proof.
  intros Hne Hws Hlt. destruct (show_usize_shape e.2) as [Hsne Hsws].
  unfold parse_line, record_body.
  rewrite split_whitespace_word; [|done|done|right; by eexists _, _].
  rewrite split_whitespace_ws by reflexivity.
  rewrite <- (string_app_nil_r (show_usize e.2)).
  rewrite split_whitespace_word; [|done|done|by left].
  simpl. rewrite parse_usize_show by done.
  by destruct e.
Qed.

Lemma read_lines_bodies (es : list (string * N)) :
  Forall (fun e => e.1 <> EmptyString /\ no_ws e.1 = true /\ e.2 < usize_bound) es ->
  read_lines (map record_body es) = foldl insert_entry ∅ es.
Proof.
  intros Hes. unfold read_lines. generalize (∅ : gmap string N).
  induction Hes as [|[w c] es (Hne & Hws & Hlt) _ IH]; intros acc; [done|].
  simpl. unfold read_line_step at 2. rewrite (parse_line_body (w, c)) by done. apply IH.
Qed.

Lemma foldl_insert_entry (es : list (string * N)) (acc : gmap string N) :
  foldl insert_entry acc es = foldr (fun e m => <[e.1 := e.2]> m) acc (rev es).
Proof.
  revert acc. induction es as [|e es IH]; intros acc; [done|].
  simpl. rewrite IH, foldr_app. done.
Qed.

Lemma foldl_insert_entry_map (m : gmap string N) (es : list (string * N)) :
  es ≡ₚ map_to_list m -> foldl insert_entry ∅ es = m.
Proof.
  intros Hes. rewrite foldl_insert_entry.
  change (foldr (fun e m => <[e.1 := e.2]> m) ∅ (rev es)) with
    (list_to_map (rev es) : gmap string N).
  rewrite <- (list_to_map_to_list m). apply list_to_map_proper.
  - rewrite <- Permutation_rev, Hes. apply NoDup_fst_map_to_list.
  - by rewrite <- Permutation_rev.
Qed.

(** C5 (as amended): writing a [WordCountMap] whose tokens are non-empty
    and free of whitespace (in whatever order its iteration visits the
    entries) and reading the file back yields the same map. *)
Theorem record_roundtrip (fs : fsys) (name : string) (m : gmap string N)
    (es : list (string * N))
    (Hkeys : map_Forall (fun w c => w <> EmptyString /\ no_ws w = true /\ c < usize_bound) m)
    (Hes : es ≡ₚ map_to_list m) :
  read_map_result (write_map_result fs name es) name = Ok m.
Proof.
  unfold read_map_result, write_map_result. rewrite lookup_insert_eq.
  assert (Hgood : Forall (fun e => e.1 <> EmptyString /\ no_ws e.1 = true /\ e.2 < usize_bound) es).
  { apply Forall_forall. intros [w c] Hin. rewrite Hes in Hin.
    apply elem_of_map_to_list in Hin. apply (Hkeys w c Hin). }
  unfold read_contents. rewrite lines_render.
  - rewrite read_lines_bodies by done. f_equal. by apply foldl_insert_entry_map.
  - eapply Forall_impl; [exact Hgood|]. naive_solver.
Qed.

Lemma record_roundtrip_witness :
  read_map_result (write_map_result ∅ "map_0.txt" [("b", 2); ("a", 1)]) "map_0.txt"
    = Ok (count_words "a b b").
Proof.
  apply record_roundtrip.
  - apply (bool_decide_unpack _). vm_compute. reflexivity.
  - vm_compute. apply Permutation_swap.
Defined.

(** C5, as stated, fails: the empty token contains no whitespace, but its
    line [" 1"] splits into one field only, so reading the record back
    loses it. *)
Lemma record_roundtrip_counterexample :
  no_ws EmptyString = true /\
  read_map_result (write_map_result ∅ "map_0.txt"
                     (map_to_list ({[ EmptyString := 1 ]} : gmap string N))) "map_0.txt"
    = Ok ∅ /\
  (∅ : gmap string N) <> {[ EmptyString := 1 ]}.
Proof.
  split_and!; [reflexivity|vm_compute; reflexivity|].
  intros H. assert (Hl : ({[ EmptyString := 1 ]} : gmap string N) !! EmptyString = Some 1)
    by apply lookup_singleton_eq.
  rewrite <- H, lookup_empty in Hl. discriminate.
Qed.






(** C7: the final result is written over the old file without truncating
    it, so the tail of a longer previous result survives, and reading the
    file back gives stale entries and stale counts. *)
Lemma write_final_result_stale_counterexample :
  let old := "zebra 5" +:+ String "010"%char "yak 9" +:+ String "010"%char EmptyString in
  let fs' := write_final_result {[ final_file := old ]}
               (map_to_list ({[ "a" := 1 ]} : gmap string N)) in
  fs' !! final_file
    = Some ("a 1" +:+ String "010"%char "a 5" +:+ String "010"%char "yak 9"
              +:+ String "010"%char EmptyString) /\
  read_map_result fs' final_file = Ok (<[ "a" := 5 ]> {[ "yak" := 9 ]}).
Proof. split; vm_compute; reflexivity. Qed.

(** ** print_top_words *)

Lemma insert_desc_perm (x : string * N) (l : list (string * N)) :
  insert_desc x l ≡ₚ x :: l.
Proof.
  induction l as [|y l IH]; [done|]. simpl.
  destruct (y.2 <? x.2); [done|].
  rewrite IH. apply Permutation_swap.
Qed.

Lemma insert_desc_sorted (x : string * N) (l : list (string * N)) :
  StronglySorted count_desc l -> StronglySorted count_desc (insert_desc x l).
Proof.
  induction l as [|y l IH]; intros Hs.
  - repeat constructor.
  - inversion Hs as [|? ? Hl Hy]; subst. simpl.
    destruct (y.2 <? x.2) eqn:Hlt.
    + apply N.ltb_lt in Hlt. constructor; [done|].
      constructor; [unfold count_desc; lia|].
      eapply Forall_impl; [exact Hy|]. unfold count_desc. intros z ?. lia.
    + apply N.ltb_ge in Hlt. constructor; [by apply IH|].
      rewrite (insert_desc_perm x l). constructor; [unfold count_desc; lia|done].
Qed.

Lemma filter_none {A} (P : A -> Prop) `{!forall x, Decision (P x)} (l : list A) :
  Forall (fun z => ~ P z) l -> filter P l = [].
Proof.
  induction 1 as [|z l Hz _ IH]; [done|]. by rewrite filter_cons_False.
Qed.

Lemma insert_desc_filter_eq (x : string * N) (l : list (string * N)) :
  StronglySorted count_desc l ->
  filter (fun e => e.2 = x.2) (insert_desc x l) = filter (fun e => e.2 = x.2) l ++ [x].
Proof.
  induction l as [|y l IH]; intros Hs.
  - simpl. rewrite filter_cons_True by done. done.
  - inversion Hs as [|? ? Hl Hy]; subst. simpl.
    destruct (y.2 <? x.2) eqn:Hlt.
    + apply N.ltb_lt in Hlt.
      assert (Hnil : filter (fun e : string * N => e.2 = x.2) (y :: l) = []).
      { apply filter_none. constructor; [simpl; lia|].
        eapply Forall_impl; [exact Hy|]. unfold count_desc. intros z ? ?. lia. }
      rewrite filter_cons_True by done. rewrite Hnil. done.
    + rewrite !filter_cons. destruct (decide (y.2 = x.2)); rewrite IH by done; done.
Qed.

Lemma insert_desc_filter_ne (x : string * N) (l : list (string * N)) (c : N) :
  x.2 <> c ->
  filter (fun e => e.2 = c) (insert_desc x l) = filter (fun e => e.2 = c) l.
Proof.
  intros Hne. induction l as [|y l IH].
  - simpl. by rewrite filter_cons_False.
  - simpl. destruct (y.2 <? x.2).
    + by rewrite filter_cons_False.
    + rewrite !filter_cons. by rewrite IH.
Qed.

Lemma sort_from_props (es acc : list (string * N)) :
  StronglySorted count_desc acc ->
  let r := foldl (fun acc x => insert_desc x acc) acc es in
  r ≡ₚ acc ++ es /\ StronglySorted count_desc r /\
  forall c, filter (fun e => e.2 = c) r
            = filter (fun e => e.2 = c) acc ++ filter (fun e => e.2 = c) es.
Proof.
  revert acc. induction es as [|x es IH]; intros acc Hs.
  - simpl. rewrite app_nil_r. split_and!; [done|done|].
    intros c. rewrite ?filter_nil. by rewrite app_nil_r.
  - simpl. destruct (IH (insert_desc x acc) (insert_desc_sorted x acc Hs))
      as (Hp & Hsorted & Hf).
    split_and!; [|done|].
    + rewrite Hp, insert_desc_perm. simpl. apply Permutation_middle.
    + intros c. rewrite Hf, filter_cons.
      destruct (decide (x.2 = c)) as [<-|Hne].
      * rewrite insert_desc_filter_eq by done. by rewrite <- app_assoc.
      * by rewrite insert_desc_filter_ne.
Qed.

(** C8 (as amended): the report is the header "Top n words:" followed by
    one line "<token>: <count>" for each of the first [min n (size m)]
    entries of the sorted list; that list is a rearrangement of the map's
    entries in non-increasing count order, and the sort is stable: entries
    with the same count keep the order in which the map was iterated, with
    no tie-break on the token. *)
Theorem print_top_words_spec (m : gmap string N) (es : list (string * N)) (n : nat)
    (Hes : es ≡ₚ map_to_list m) :
  let sorted := sort_by_count_desc es in
  print_top_words es n = top_header n :: map top_line (take n sorted) /\
  length (print_top_words es n) = S (Nat.min n (size m)) /\
  sorted ≡ₚ es /\
  StronglySorted count_desc sorted /\
  (forall c, filter (fun e => e.2 = c) sorted = filter (fun e => e.2 = c) es).
Proof.
  intros sorted.
  destruct (sort_from_props es [] (SSorted_nil _)) as (Hp & Hs & Hf).
  fold (sort_by_count_desc es) in Hp, Hs, Hf. fold sorted in Hp, Hs, Hf.
  rewrite app_nil_l in Hp.
  split_and!; [done| | done | done | ].
  - unfold print_top_words. simpl. rewrite length_map, length_take.
    fold sorted. rewrite (Permutation_length Hp), (Permutation_length Hes).
    rewrite length_map_to_list. done.
  - intros c. rewrite Hf. by rewrite filter_nil.
Qed.

Lemma print_top_words_spec_witness :
  print_top_words [("b", 1); ("a", 3)] 1
    = top_header 1 :: map top_line (take 1 (sort_by_count_desc [("b", 1); ("a", 3)])).
Proof.
  apply (print_top_words_spec (<[ "a" := 3%N ]> {[ "b" := 1%N ]}) [("b", 1); ("a", 3)] 1).
  vm_compute. apply Permutation_swap.
Defined.

(** C8, as stated, fails twice: an empty map gives the header and no line
    at all rather than [n] lines, and two tokens of the same count are
    listed in the map's iteration order ("b" before "a"), not in
    lexicographic order. *)
Lemma print_top_words_counterexample :
  print_top_words (map_to_list (∅ : gmap string N)) 10 = ["Top 10 words:"] /\
  [("b", 1); ("a", 1)] ≡ₚ map_to_list (<[ "a" := 1 ]> {[ "b" := 1 ]} : gmap string N) /\
  print_top_words [("b", 1); ("a", 1)] 2 = ["Top 2 words:"; "b: 1"; "a: 1"].
Proof.
  split_and!; [vm_compute; reflexivity| |vm_compute; reflexivity].
  vm_compute. apply Permutation_swap.
Qed.

(** ** cleanup_intermediate_files *)

Lemma cleanup_loop_step (fails : string -> bool) (fs fs' : fsys) (x : string)
    (r : io_result unit) :
  remove_file fails fs x = (fs', r) ->
  (fails x = false -> fs' !! x = None) /\
  (forall n, n <> x -> fs' !! n = fs !! n) /\
  (fails x = true -> r = Err PermissionDenied) /\
  (fails x = false -> fs !! x = None -> r = Err NotFound) /\
  (forall e, r = Err e ->
     (e = PermissionDenied /\ fails x = true) \/
     (e = NotFound /\ fails x = false /\ fs !! x = None)).
Proof.
  unfold remove_file. intros Hrm.
  destruct (fails x) eqn:Hf.
  - injection Hrm as <- <-. split_and!; try done. intros e He. left. by injection He as <-.
  - destruct (fs !! x) eqn:Hl; injection Hrm as <- <-.
    + split_and!; try done.
      * intros _. apply lookup_delete_eq.
      * intros n Hn. by apply lookup_delete_ne.
    + split_and!; try done. intros e He. right. by injection He as <-.
Qed.

Lemma cleanup_loop_props (fails : string -> bool) (names : list string)
    (fs : fsys) (att err : list string) :
  let o := cleanup_loop fails fs names att err in
  co_result o = Ok tt /\
  co_attempted o = att ++ names /\
  (forall n, n ∈ names -> fails n = false -> co_fs o !! n = None) /\
  (forall n, n ∉ names -> co_fs o !! n = fs !! n) /\
  (exists extra, co_stderr o = err ++ extra /\
     forall l, l ∈ extra -> exists n e, n ∈ names /\ l = delete_error_line n e) /\
  (forall n, n ∈ names -> fails n = true ->
     delete_error_line n PermissionDenied ∈ co_stderr o).
Proof.
  revert fs att err. induction names as [|x rest IH]; intros fs att err.
  - simpl. split_and!; [done|by rewrite app_nil_r|set_solver|done| |set_solver].
    exists []. split; [by rewrite app_nil_r|set_solver].
  - simpl.
    destruct (remove_file fails fs x) as [fs' r] eqn:Hrm.
    destruct (cleanup_loop_step fails fs fs' x r Hrm) as (Hx & Hother & Hpd & _ & _).
    set (err' := match r with
                 | Ok _ => err
                 | Err e => err ++ [delete_error_line x e]
                 end).
    destruct (IH fs' (att ++ [x]) err') as (Hres & Hatt & Hgone & Hsame & (extra & Herr & Hextra) & Hlog).
    assert (Hprefix : exists e', err' = err ++ e' /\
              forall l, l ∈ e' -> exists e, l = delete_error_line x e).
    { unfold err'. destruct r as [[]|e].
      - exists []. split; [by rewrite app_nil_r|set_solver].
      - exists [delete_error_line x e]. split; [done|].
        intros l Hl. apply list_elem_of_singleton in Hl. by exists e. }
    destruct Hprefix as (e' & He' & He'line).
    split_and!.
    + done.
    + by rewrite Hatt, <- app_assoc.
    + intros n Hn Hf. destruct (decide (n ∈ rest)) as [Hin|Hnin]; [by apply Hgone|].
      assert (n = x) as -> by set_solver.
      rewrite Hsame by done. by apply Hx.
    + intros n Hn. rewrite Hsame by set_solver. apply Hother. set_solver.
    + exists (e' ++ extra). split; [by rewrite Herr, He', app_assoc|].
      intros l Hl. apply elem_of_app in Hl as [Hl|Hl].
      * destruct (He'line l Hl) as [e ->]. exists x, e. set_solver.
      * destruct (Hextra l Hl) as (n & e & Hn & ->). exists n, e. set_solver.
    + intros n Hn Hf. destruct (decide (n ∈ rest)) as [Hin|Hnin]; [by apply Hlog|].
      assert (n = x) as -> by set_solver.
      rewrite Herr. apply elem_of_app. left.
      unfold err'. rewrite (Hpd Hf). apply elem_of_app. right. by left.
Qed.

(** Every failed removal is logged: a refused one, one whose file is
    missing when its name is reached first, and every later occurrence of
    a name; no other line is written. *)
Lemma cleanup_loop_log (fails : string -> bool) (names : list string)
    (fs : fsys) (att err : list string) :
  let o := cleanup_loop fails fs names att err in
  (forall n, n ∈ names -> fails n = false -> fs !! n = None ->
     delete_error_line n NotFound ∈ co_stderr o) /\
  (forall a n b c, names = a ++ n :: b ++ n :: c -> fails n = false ->
     delete_error_line n NotFound ∈ co_stderr o) /\
  (exists extra, co_stderr o = err ++ extra /\
     forall l, l ∈ extra -> exists n e, n ∈ names /\ l = delete_error_line n e /\
       ((e = PermissionDenied /\ fails n = true) \/
        (e = NotFound /\ fails n = false /\
         (fs !! n = None \/ exists a b c, names = a ++ n :: b ++ n :: c)))).
Proof.
  revert fs att err. induction names as [|x rest IH]; intros fs att err.
  - simpl. split_and!.
    + set_solver.
    + intros a n b c H. destruct a; discriminate.
    + exists []. split; [by rewrite app_nil_r|set_solver].
  - simpl.
    destruct (remove_file fails fs x) as [fs' r] eqn:Hrm.
    destruct (cleanup_loop_step fails fs fs' x r Hrm) as (Hx & Hother & _ & Hnf & Hr).
    set (err' := match r with
                 | Ok _ => err
                 | Err e => err ++ [delete_error_line x e]
                 end).
    destruct (IH fs' (att ++ [x]) err') as (H1 & H2 & (extra & Herr & Hext)).
    split_and!.
    + intros n Hn Hf Hnone. destruct (decide (n = x)) as [->|Hne].
      * rewrite Herr. apply elem_of_app. left. unfold err'.
        rewrite (Hnf Hf Hnone). apply elem_of_app. right. by left.
      * apply H1; [set_solver|done|]. by rewrite Hother.
    + intros [|y a] n b c Hnames Hf; simpl in Hnames; injection Hnames as -> Hrest.
      * apply (H1 n); [rewrite Hrest; set_solver|done|by apply Hx].
      * by apply (H2 a n b c).
    + assert (Hprefix : exists e', err' = err ++ e' /\
                forall l, l ∈ e' -> exists e, l = delete_error_line x e /\ r = Err e).
      { unfold err'. destruct r as [[]|e].
        - exists []. split; [by rewrite app_nil_r|set_solver].
        - exists [delete_error_line x e]. split; [done|].
          intros l Hl. apply list_elem_of_singleton in Hl. by exists e. }
      destruct Hprefix as (e' & He' & He'line).
      exists (e' ++ extra). split; [by rewrite Herr, He', app_assoc|].
      intros l Hl. apply elem_of_app in Hl as [Hl|Hl].
      * destruct (He'line l Hl) as (e & -> & He). exists x, e.
        split_and!; [set_solver|done|].
        destruct (Hr e He) as [?|(? & ? & ?)]; [by left|right; auto].
      * destruct (Hext l Hl) as (n & e & Hn & -> & Hcase). exists n, e.
        split_and!; [set_solver|done|].
        destruct Hcase as [?|(He & Hf & [Hnone|(a & b & c & Habc)])]; [by left| |].
        -- right. split_and!; [done|done|].
           destruct (decide (n = x)) as [->|Hne].
           ++ right. apply list_elem_of_split in Hn as (b & c & Hbc).
              exists [], b, c. by rewrite Hbc.
           ++ left. by rewrite <- Hother.
        -- right. split_and!; [done|done|]. right.
           exists (x :: a), b, c. by rewrite Habc.
Qed.

(** C9: the cleanup tries to remove every record name it is given, in
    order, and returns [Ok] whatever happens.  A removal fails when the
    file system refuses it ([PermissionDenied]) or when the file is not
    there when the name is reached: missing from the start, or removed at
    an earlier occurrence of the same name ([NotFound]).  Every such
    failure is reported on stderr as "Error deleting file <name>: <error>",
    for instance "Error deleting file map_0.txt: No such file or directory
    (os error 2)", and stderr holds nothing else.  Every record whose
    removal is not refused is gone afterwards, and other files are
    untouched; in particular a run that reports no error leaves none of
    the records. *)
Theorem cleanup_removes_records (fails : string -> bool) (fs : fsys)
    (map_results : list string) :
  let o := cleanup_intermediate_files fails fs map_results in
  co_result o = Ok tt /\
  co_attempted o = map_results /\
  (forall n, n ∈ map_results -> fails n = false -> co_fs o !! n = None) /\
  (forall n, n ∉ map_results -> co_fs o !! n = fs !! n) /\
  (forall n, n ∈ map_results -> fails n = true ->
     delete_error_line n PermissionDenied ∈ co_stderr o) /\
  (forall n, n ∈ map_results -> fails n = false -> fs !! n = None ->
     delete_error_line n NotFound ∈ co_stderr o) /\
  (forall a n b c, map_results = a ++ n :: b ++ n :: c -> fails n = false ->
     delete_error_line n NotFound ∈ co_stderr o) /\
  (forall l, l ∈ co_stderr o ->
     exists n e, n ∈ map_results /\ l = delete_error_line n e /\
       ((e = PermissionDenied /\ fails n = true) \/
        (e = NotFound /\ fails n = false /\
         (fs !! n = None \/ exists a b c, map_results = a ++ n :: b ++ n :: c)))) /\
  (co_stderr o = [] -> forall n, n ∈ map_results -> co_fs o !! n = None).
Proof.
  intros o.
  destruct (cleanup_loop_props fails map_results fs [] [])
    as (Hres & Hatt & Hgone & Hsame & _ & Hlog).
  destruct (cleanup_loop_log fails map_results fs [] [])
    as (Hmiss & Hdup & (extra & Herr & Hextra)).
  fold (cleanup_intermediate_files fails fs map_results) in *.
  fold o in Hres, Hatt, Hgone, Hsame, Hlog, Hmiss, Hdup, Herr.
  split_and!; [done|done|done|done|done|done|done| |].
  - intros l Hl. rewrite Herr in Hl. by apply Hextra.
  - intros Hnil n Hn. apply Hgone; [done|].
    destruct (fails n) eqn:Hf; [|done].
    specialize (Hlog n Hn Hf). rewrite Hnil in Hlog. set_solver.
Qed.

(** ** map_phase *)

Lemma busy_insert (ws : list worker) (i : nat) (w w' : worker) :
  ws !! i = Some w ->
  (busy (<[i := w']> ws) + is_busy w = busy ws + is_busy w')%nat.
Proof.
  revert i. induction ws as [|x ws IH]; intros [|i] Hi; simpl in *; try done.
  - injection Hi as ->. lia.
  - specialize (IH i Hi). lia.
Qed.

Lemma elem_of_insert_inv {A} (ws : list A) (i : nat) (x y : A) :
  x ∈ <[i := y]> ws -> x = y \/ x ∈ ws.
Proof.
  intros Hx. apply list_elem_of_lookup in Hx as [j Hj].
  destruct (decide (i = j)) as [->|Hne].
  - destruct (decide (j < length ws)%nat) as [Hlt|Hge].
    + rewrite list_lookup_insert_eq in Hj by done. left. congruence.
    + rewrite list_insert_ge in Hj by lia. right. by eapply list_elem_of_lookup_2.
  - rewrite list_lookup_insert_ne in Hj by done. right. by eapply list_elem_of_lookup_2.
Qed.

Lemma busy_replicate_idle (M : nat) : busy (replicate M Idle) = 0%nat.
Proof. induction M as [|M IH]; simpl; [done|]. by rewrite IH. Qed.

Lemma map_inv_init (chunks : list string) (M : nat) (fs : fsys) :
  map_inv chunks M (map_init chunks M fs).
Proof.
  unfold map_inv, map_init. simpl. rewrite length_replicate, busy_replicate_idle.
  split_and!; [done|lia|constructor|].
  intros Hs. apply elem_of_replicate in Hs. naive_solver.
Qed.

Lemma map_inv_step (ac : access) (chunks : list string) (M : nat) (s s' : mstate) :
  map_step ac s s' -> map_inv chunks M s -> map_inv chunks M s'.
Proof.
  intros Hstep (Hlen & Hcount & Hnames & Hstop).
  destruct Hstep as [s i q c Hi Hq | s i Hi Hq | s i text es Hi Hw Hes | s i text e Hi Hw | s i Hi];
    unfold map_inv, set_worker; simpl; rewrite length_insert.
  - pose proof (busy_insert _ _ _ (Popped c) Hi) as Hb. simpl in Hb.
    rewrite Hq, length_app in Hcount. simpl in Hcount.
    split_and!; [done|lia|done|].
    intros Hs. apply elem_of_insert_inv in Hs as [Hs|Hs]; [discriminate|].
    specialize (Hstop Hs). rewrite Hstop in Hq. by destruct q.
  - pose proof (busy_insert _ _ _ Stopped Hi) as Hb. simpl in Hb.
    split_and!; [done|lia|done|]. by intros _.
  - pose proof (busy_insert _ _ _ Wrote Hi) as Hb. simpl in Hb.
    split_and!; [done|lia|done|].
    intros Hs. apply elem_of_insert_inv in Hs as [Hs|Hs]; [discriminate|]. by apply Hstop.
  - pose proof (busy_insert _ _ _ (Failed e) Hi) as Hb. simpl in Hb.
    split_and!; [done|lia|done|].
    intros Hs. apply elem_of_insert_inv in Hs as [Hs|Hs]; [discriminate|]. by apply Hstop.
  - pose proof (busy_insert _ _ _ Idle Hi) as Hb. simpl in Hb.
    rewrite length_app. simpl.
    split_and!; [done|lia| |].
    + apply Forall_app. split; [done|]. constructor; [|constructor].
      exists i. split; [|done]. rewrite <- Hlen. by eapply lookup_lt_Some.
    + intros Hs. apply elem_of_insert_inv in Hs as [Hs|Hs]; [discriminate|]. by apply Hstop.
Qed.

Lemma map_inv_rtc (ac : access) (chunks : list string) (M : nat) (fs : fsys) (s : mstate) :
  rtc (map_step ac) (map_init chunks M fs) s -> map_inv chunks M s.
Proof.
  intros Hrtc. remember (map_init chunks M fs) as s0 eqn:Hs0.
  assert (Hinv : map_inv chunks M s0) by (subst; apply map_inv_init).
  clear Hs0. induction Hrtc as [s0|s0 s1 s2 Hstep _ IH]; [done|].
  apply IH. by eapply map_inv_step.
Qed.

Lemma map_no_workers_stuck (ac : access) (s s' : mstate) :
  rtc (map_step ac) s s' -> m_workers s = [] -> s' = s.
Proof.
  induction 1 as [s|s s1 s2 Hstep _ IH]; intros Hw; [done|].
  exfalso. destruct Hstep; rewrite Hw in *; done.
Qed.

Lemma size_list_to_set_le (l : list string) :
  (size (list_to_set l : gset string) <= length l)%nat.
Proof.
  induction l as [|x l IH].
  - change (list_to_set [] : gset string) with (∅ : gset string).
    rewrite size_empty. done.
  - rewrite list_to_set_cons, size_union_alt, size_singleton. simpl.
    pose proof (subseteq_size (list_to_set l ∖ {[x]} : gset string) (list_to_set l)
                  ltac:(set_solver)). lia.
Qed.

Lemma busy_stopped (ws : list worker) :
  Forall (fun w => w = Stopped) ws -> busy ws = 0%nat.
Proof. induction 1 as [|w ws -> _ IH]; simpl; [done|]. by rewrite IH. Qed.

(** C2 (as amended): whenever the map pool joins, every name it returns is
    [map_k.txt] for a worker slot [k < M]; with at least one worker it
    returns one name per chunk, so a worker that handled several chunks
    appears several times; with no worker it returns nothing.  The names
    returned, as a set, have at most [M] elements. *)
Theorem map_phase_names (ac : access) (chunks : list string) (M : nat) (fs : fsys)
    (s : mstate) (Hrun : map_phase ac chunks M fs s) :
  Forall (fun r => exists k, (k < M)%nat /\ r = map_name k) (m_results s) /\
  ((0 < M)%nat -> length (m_results s) = length chunks) /\
  (M = 0%nat -> m_results s = []) /\
  (size (list_to_set (m_results s) : gset string) <= M)%nat.
Proof.
  destruct Hrun as [Hrtc Hdone].
  destruct (map_inv_rtc ac chunks M fs s Hrtc) as (Hlen & Hcount & Hnames & Hstop).
  split_and!.
  - done.
  - intros HM. rewrite (busy_stopped _ Hdone) in Hcount.
    destruct (m_workers s) as [|w ws] eqn:Hw; [simpl in Hlen; lia|].
    unfold map_done in Hdone. rewrite Hw in Hdone. apply Forall_cons in Hdone as [-> _].
    rewrite Hstop in Hcount; [simpl in Hcount; lia|]. by left.
  - intros ->. apply map_no_workers_stuck in Hrtc; [|done]. by subst.
  - transitivity (size (list_to_set (map_name <$> seq 0 M) : gset string)).
    + apply subseteq_size. intros r Hr.
      apply elem_of_list_to_set in Hr. apply elem_of_list_to_set.
      rewrite Forall_forall in Hnames. destruct (Hnames r Hr) as (k & Hk & ->).
      apply list_elem_of_fmap. exists k. split; [done|].
      apply elem_of_seq. lia.
    + etransitivity; [apply size_list_to_set_le|]. by rewrite length_fmap, length_seq.
Qed.

(** A run of the pool with one worker on two chunks: the worker pops, counts
    and reports each chunk, then stops. *)
Lemma map_phase_one_worker_run :
  map_phase full_access ["a" +:+ String "010"%char EmptyString; "b" +:+ String "010"%char EmptyString] 1 ∅
    {| m_queue := [];
       m_results := [map_name 0; map_name 0];
       m_fs := write_map_result
                 (write_map_result ∅ (map_name 0)
                    (map_to_list (count_words ("b" +:+ String "010"%char EmptyString))))
                 (map_name 0) (map_to_list (count_words ("a" +:+ String "010"%char EmptyString)));
       m_workers := [Stopped] |}.
Proof.
  split; [|repeat constructor].
  eapply rtc_l.
  { eapply (step_pop _ _ 0 ["a" +:+ String "010"%char EmptyString]); reflexivity. }
  eapply rtc_l. { eapply (step_write _ _ 0); [reflexivity|reflexivity|reflexivity]. }
  eapply rtc_l. { eapply (step_push _ _ 0); reflexivity. }
  eapply rtc_l. { eapply (step_pop _ _ 0 []); reflexivity. }
  eapply rtc_l. { eapply (step_write _ _ 0); [reflexivity|reflexivity|reflexivity]. }
  eapply rtc_l. { eapply (step_push _ _ 0); reflexivity. }
  eapply rtc_l. { eapply (step_stop _ _ 0); reflexivity. }
  apply rtc_refl.
Qed.

Lemma map_phase_names_witness :
  exists s, map_phase full_access ["a" +:+ String "010"%char EmptyString; "b" +:+ String "010"%char EmptyString] 1 ∅ s /\
    length (m_results s) = 2%nat.
Proof.
  eexists. split; [apply map_phase_one_worker_run|].
  apply (proj1 (proj2 (map_phase_names _ _ _ _ _ map_phase_one_worker_run))). lia.
Defined.

(** C2, as stated, fails: with one worker and two chunks, the pool can join
    returning the name [map_0.txt] twice, a list with a duplicate and more
    than [M] entries. *)
Lemma map_phase_names_counterexample :
  exists s, map_phase full_access ["a" +:+ String "010"%char EmptyString; "b" +:+ String "010"%char EmptyString] 1 ∅ s /\
    m_results s = [map_name 0; map_name 0] /\
    ~ NoDup (m_results s) /\
    (length (m_results s) > 1)%nat.
Proof.
  eexists. split; [apply map_phase_one_worker_run|]. simpl.
  split_and!; [done| |simpl; lia].
  intros Hnd. apply NoDup_cons in Hnd as [Hn _]. apply Hn. by left.
Qed.

(** * Further properties of the code *)

(** ** Tokens across line breaks *)

Lemma pieces_ws_app (s t : string) (c : ascii) :
  is_whitespace c = true ->
  split_ws_pieces (s +:+ String c t) = split_ws_pieces s ++ split_ws_pieces t.
Proof.
  intros Hc. induction s as [|d s IH].
  - rewrite string_app_nil_l, pieces_ws by done. done.
  - rewrite string_app_cons. simpl. rewrite IH.
    destruct (pieces_cons s) as (p & ps & ->). simpl.
    destruct (is_whitespace d); done.
Qed.

Lemma split_whitespace_ws_app (s t : string) (c : ascii) :
  is_whitespace c = true ->
  split_whitespace (s +:+ String c t) = split_whitespace s ++ split_whitespace t.
Proof.
  intros Hc. unfold split_whitespace. rewrite pieces_ws_app by done.
  apply filter_app.
Qed.

Lemma split_whitespace_nl_concat (ls : list string) :
  split_whitespace (nl_concat ls) = concat (split_whitespace <$> ls).
Proof.
  induction ls as [|l ls IH]; [done|].
  rewrite nl_concat_cons, string_app_assoc, string_app_cons, string_app_nil_l.
  rewrite split_whitespace_ws_app by reflexivity. by rewrite IH.
Qed.

Lemma split_newline_join (s p : string) (ps : list string) :
  split_newline s = p :: ps -> s = p +:+ nl_join_tail ps.
Proof.
  revert p ps. induction s as [|c r IH]; intros p ps Hs.
  - simpl in Hs. injection Hs as <- <-. done.
  - simpl in Hs. destruct (split_newline r) as [|t ts] eqn:Hr; [discriminate|].
    specialize (IH t ts eq_refl).
    destruct (Ascii.eqb c "010"%char) eqn:Hc.
    + apply Ascii.eqb_eq in Hc as ->. injection Hs as <- <-.
      rewrite string_app_nil_l. simpl. by rewrite <- IH.
    + injection Hs as <- <-. rewrite string_app_cons. by rewrite <- IH.
Qed.

Lemma split_whitespace_join (p : string) (ps : list string) :
  split_whitespace (p +:+ nl_join_tail ps) = concat (split_whitespace <$> p :: ps).
Proof.
  revert p. induction ps as [|q qs IH]; intros p.
  - simpl. rewrite string_app_nil_r. by rewrite app_nil_r.
  - simpl. rewrite split_whitespace_ws_app by reflexivity. rewrite IH. done.
Qed.

Lemma strip_cr_cases (s : string) :
  strip_cr s = s \/ s = strip_cr s +:+ String "013"%char EmptyString.
Proof.
  induction s as [|c r IH]; [by left|].
  destruct r as [|d r'].
  - simpl. destruct (Ascii.eqb c "013"%char) eqn:Hc; [|by left].
    apply Ascii.eqb_eq in Hc as ->. by right.
  - change (strip_cr (String c (String d r'))) with (String c (strip_cr (String d r'))).
    destruct IH as [IH|IH].
    + left. by rewrite IH.
    + right. rewrite string_app_cons. by rewrite <- IH.
Qed.

Lemma split_whitespace_strip_cr (s : string) :
  split_whitespace (strip_cr s) = split_whitespace s.
Proof.
  destruct (strip_cr_cases s) as [->|Hs]; [done|].
  rewrite Hs at 2. rewrite split_whitespace_ws_app by reflexivity.
  simpl. by rewrite app_nil_r.
Qed.

(** The tokens of a file are the tokens of the lines [BufReader::lines]
    yields from it. *)
Lemma split_whitespace_lines (content : string) :
  concat (split_whitespace <$> lines content) = split_whitespace content.
Proof.
  destruct (split_newline_cons content) as (p & ps & Hs).
  rewrite (split_newline_join content p ps Hs) at 2.
  rewrite split_whitespace_join. unfold lines. rewrite Hs.
  assert (Hne : p :: ps <> []) by done.
  generalize dependent (p :: ps). intros l _ Hne.
  transitivity (concat (split_whitespace <$> removelast l ++ [List.last l EmptyString]));
    [|by rewrite <- (app_removelast_last EmptyString Hne)].
  rewrite !fmap_app, !concat_app. apply (f_equal2 app).
  - generalize (removelast l). intros R. induction R as [|x R IH]; [done|].
    cbn [map]. rewrite !fmap_cons. cbn [concat].
    by rewrite split_whitespace_strip_cr, IH.
  - destruct (String.eqb_spec (List.last l EmptyString) EmptyString) as [->|Hl]; done.
Qed.

(** ** split_file: every line in exactly one chunk *)

Lemma nl_concat_snoc (ls : list string) (x : string) :
  nl_concat (ls ++ [x]) = (nl_concat ls +:+ x) +:+ String "010"%char EmptyString.
Proof.
  induction ls as [|l ls IH].
  - simpl. rewrite nl_concat_cons. unfold nl_concat. simpl.
    by rewrite string_app_nil_l, string_app_nil_r.
  - simpl. rewrite !nl_concat_cons, IH, !string_app_assoc. done.
Qed.

Lemma concat_insert_app {A} (Ls : list (list A)) (i : nat) (L extra : list A) :
  Ls !! i = Some L -> concat (<[i := L ++ extra]> Ls) ≡ₚ concat Ls ++ extra.
Proof.
  revert i. induction Ls as [|L0 Ls IH]; intros [|i] Hi; simpl in *; try done.
  - injection Hi as ->. rewrite <- !app_assoc. f_equiv. apply Permutation_app_comm.
  - rewrite IH by done. by rewrite app_assoc.
Qed.

Lemma split_run_groups (C : nat) (HC : (0 < C)%nat) (ls : list string) :
  forall (Ls : list (list string)) (i : nat),
  length Ls = C -> (i < C)%nat ->
  exists Ls' i',
    split_run C (nl_concat <$> Ls, i) ls = Some (nl_concat <$> Ls', i') /\
    concat Ls' ≡ₚ concat Ls ++ ls.
Proof.
  induction ls as [|x r IH]; intros Ls i Hlen Hi.
  - exists Ls, i. split; [done|]. by rewrite app_nil_r.
  - simpl. destruct (lookup_lt_is_Some_2 Ls i) as [L HL]; [lia|].
    rewrite list_lookup_fmap, HL. simpl.
    rewrite (next_index_spec C HC i Hi).
    set (i1 := if (i + 1 =? C)%nat then 0%nat else (i + 1)%nat).
    assert (Hi1 : (i1 < C)%nat).
    { unfold i1. destruct (Nat.eqb_spec (i + 1) C); lia. }
    destruct (IH (<[i := L ++ [x]]> Ls) i1) as (Ls' & i' & Hrun & Hperm);
      [by rewrite length_insert|done|].
    exists Ls', i'. split.
    + rewrite <- Hrun. f_equal. f_equal.
      rewrite list_fmap_insert. by rewrite nl_concat_snoc.
    + rewrite Hperm, concat_insert_app by done.
      rewrite <- app_assoc. done.
Qed.

(** The chunks are the line groups of a partition of the input lines. *)
Lemma split_file_groups (ls : list string) (C : nat) (chunks : list string) :
  (0 < C)%nat -> split_file ls C = Some chunks ->
  exists Ls, chunks = nl_concat <$> Ls /\ concat Ls ≡ₚ ls.
Proof.
  intros HC Hsplit. unfold split_file in Hsplit.
  destruct (split_run_groups C HC ls (replicate C []) 0) as (Ls & i & Hrun & Hperm);
    [by rewrite length_replicate|done|].
  assert (Hinit : nl_concat <$> replicate C [] = replicate C EmptyString).
  { rewrite fmap_replicate. done. }
  rewrite Hinit in Hrun. rewrite Hrun in Hsplit. injection Hsplit as <-.
  exists Ls. split; [done|]. rewrite Hperm.
  assert (Hc : concat (replicate C ([] : list string)) = []).
  { clear. induction C as [|C IH]; [done|]. simpl. by rewrite IH. }
  by rewrite Hc.
Qed.

(** ** Counting is insensitive to the order of the tokens *)

Lemma count_tokens_perm (ws ws' : list string) :
  ws ≡ₚ ws' -> count_tokens ws = count_tokens ws'.
Proof.
  intros Hp. apply map_eq. intros w.
  rewrite !count_tokens_merge, !merge_record_lookup, !keys_ones.
  assert (Ho : ones ws ≡ₚ ones ws') by (unfold ones; by rewrite Hp).
  rewrite (sum_key_perm w _ _ Ho).
  destruct (decide (w ∈ ws)) as [H1|H1]; destruct (decide (w ∈ ws')) as [H2|H2];
    try done; exfalso; [apply H2; by rewrite <- Hp|apply H1; by rewrite Hp].
Qed.

(** Merging the counts of token lists, in any order, counts their
    concatenation. *)
Lemma reduce_count_tokens (ts : list (list string)) (recs : list (gmap string N))
    (order : list (list (string * N))) :
  recs ≡ₚ count_tokens <$> ts ->
  Forall2 (fun es r => es ≡ₚ map_to_list r) order recs ->
  reduce_records order = count_tokens (concat ts).
Proof.
  intros Hperm Hiter. apply map_eq. intros w.
  rewrite (reduce_records_lookup _ recs) by done.
  rewrite count_tokens_merge, ones_concat, merge_record_concat.
  rewrite reduce_from_lookup, lookup_empty. simpl.
  destruct (count_tokens_records ts w) as [Hs He].
  rewrite Hs.
  destruct (decide (Exists (fun r => is_Some (r !! w)) (count_tokens <$> ts))) as [H1|H1];
    destruct (decide (Exists (fun es => w ∈ es.*1) (ones <$> ts))) as [H2|H2];
    naive_solver.
Qed.

Lemma concat_fmap_perm {A B} (f : A -> list B) (l l' : list A) :
  l ≡ₚ l' -> concat (f <$> l) ≡ₚ concat (f <$> l').
Proof.
  induction 1 as [|x l l' _ IH|x y l|l l' l'' _ IH1 _ IH2]; simpl.
  - done.
  - by rewrite IH.
  - rewrite !app_assoc. f_equiv. apply Permutation_app_comm.
  - by rewrite IH1, IH2.
Qed.

Lemma concat_fmap_map (f : string -> string) (g : string -> list string) (l : list string) :
  concat ((fun c => map f (g c)) <$> l) = map f (concat (g <$> l)).
Proof.
  induction l as [|x l IH]; [done|].
  rewrite !fmap_cons. cbn [concat]. by rewrite map_app, IH.
Qed.

Lemma split_whitespace_groups (Ls : list (list string)) :
  concat (split_whitespace <$> (nl_concat <$> Ls)) = concat (split_whitespace <$> concat Ls).
Proof.
  induction Ls as [|L Ls IH]; [done|].
  rewrite !fmap_cons. cbn [concat].
  rewrite split_whitespace_nl_concat, IH, fmap_app, concat_app. done.
Qed.

(** ** Characters *)

Lemma char_to_lowercase_ws (c : ascii) :
  is_whitespace (char_to_lowercase c) = is_whitespace c.
Proof. destruct c as [[][][][][][][][]]; reflexivity. Qed.

Lemma char_to_lowercase_idem (c : ascii) :
  char_to_lowercase (char_to_lowercase c) = char_to_lowercase c.
Proof. destruct c as [[][][][][][][][]]; reflexivity. Qed.

Lemma to_lowercase_no_ws (s : string) : no_ws (to_lowercase s) = no_ws s.
Proof. induction s as [|c s IH]; [done|]. simpl. by rewrite char_to_lowercase_ws, IH. Qed.

Lemma to_lowercase_idem (s : string) : to_lowercase (to_lowercase s) = to_lowercase s.
Proof. induction s as [|c s IH]; [done|]. simpl. by rewrite char_to_lowercase_idem, IH. Qed.

Lemma to_lowercase_nonempty (s : string) : s <> EmptyString -> to_lowercase s <> EmptyString.
Proof. by destruct s. Qed.

(** Every entry of [count_words]: a non-empty, whitespace-free, lowercase
    key and a [usize] count. *)
Lemma count_words_entry (text w : string) (c : N) :
  count_words text !! w = Some c ->
  w <> EmptyString /\ no_ws w = true /\ to_lowercase w = w /\ c < usize_bound.
Proof.
  intros Hw. unfold count_words in Hw.
  destruct (count_tokens_lookup (map to_lowercase (split_whitespace text)) w) as [Hd Hi].
  rewrite keys_ones in Hi. rewrite Hw in Hd, Hi. simpl in Hd.
  assert (Hin : w ∈ map to_lowercase (split_whitespace text)) by (apply Hi; by eexists).
  apply list_elem_of_In, in_map_iff in Hin as (t & <- & Ht).
  apply list_elem_of_In in Ht.
  pose proof (proj1 (Forall_forall _ _) (split_whitespace_tokens text) t Ht) as [Hne Hws].
  split_and!.
  - by apply to_lowercase_nonempty.
  - by rewrite to_lowercase_no_ws.
  - apply to_lowercase_idem.
  - rewrite Hd. apply N.mod_lt. apply usize_bound_nz.
Qed.

Lemma sum_counts_perm (es es' : list (string * N)) :
  es ≡ₚ es' -> sum_counts es = sum_counts es'.
Proof. induction 1; simpl; lia. Qed.

Lemma count_tokens_snoc (ws : list string) (w : string) :
  count_tokens (ws ++ [w]) = bump (count_tokens ws) w.
Proof. unfold count_tokens. by rewrite foldl_app. Qed.

Lemma count_tokens_sum (ws : list string) :
  N.of_nat (length ws) < usize_bound ->
  sum_counts (map_to_list (count_tokens ws)) = N.of_nat (length ws).
Proof.
  induction ws as [|w ws IH] using rev_ind; intros Hlen; [done|].
  rewrite length_app in Hlen. simpl in Hlen.
  rewrite count_tokens_snoc, length_app. simpl.
  specialize (IH ltac:(lia)).
  unfold bump. destruct (count_tokens ws !! w) as [v|] eqn:Hv.
  - destruct (count_tokens_lookup ws w) as [Hd _].
    rewrite Hv, sum_key_ones in Hd. simpl in Hd.
    pose proof (length_filter (fun t => t = w) ws) as Hf.
    rewrite N.mod_small in Hd by lia.
    simpl. rewrite <- insert_delete_eq.
    rewrite (sum_counts_perm _ _ (map_to_list_insert _ _ _ (lookup_delete_eq _ _))).
    rewrite <- (sum_counts_perm _ _ (map_to_list_delete _ _ _ Hv)) in IH.
    simpl in IH |- *. unfold usize_add. rewrite N.mod_small by lia. lia.
  - simpl. rewrite (sum_counts_perm _ _ (map_to_list_insert _ _ _ Hv)). simpl.
    unfold usize_add. rewrite N.mod_small by (unfold usize_bound; lia). lia.
Qed.

Lemma split_whitespace_nil (s : string) :
  split_whitespace s = [] <-> all_ws s = true.
Proof.
  induction s as [|c r IH]; [done|].
  simpl. destruct (is_whitespace c) eqn:Hc.
  - rewrite split_whitespace_ws by done. done.
  - unfold split_whitespace. simpl.
    destruct (pieces_cons r) as (t & ts & ->). rewrite Hc.
    rewrite filter_cons_True by done. done.
Qed.

(** X1: the chunker followed by one [count_words] per chunk and the merge
    of the per-chunk counts, in any order, counts the whole file: however
    many chunks, no token is lost, split or counted twice. *)
Theorem split_count_merge (content : string) (C : nat) (chunks : list string)
    (recs : list (gmap string N)) (order : list (list (string * N)))
    (HC : (0 < C)%nat) (Hsplit : split_file (lines content) C = Some chunks)
    (Hperm : recs ≡ₚ count_words <$> chunks)
    (Hiter : Forall2 (fun es r => es ≡ₚ map_to_list r) order recs) :
  reduce_records order = count_words content.
Proof.
  destruct (split_file_groups (lines content) C chunks HC Hsplit) as (Ls & -> & HLs).
  set (ts := (fun c => map to_lowercase (split_whitespace c)) <$> (nl_concat <$> Ls)).
  assert (Hrecs : count_words <$> (nl_concat <$> Ls) = count_tokens <$> ts).
  { unfold ts. generalize (nl_concat <$> Ls). intros l.
    induction l as [|x l IH]; [done|]. rewrite !fmap_cons, IH. reflexivity. }
  rewrite Hrecs in Hperm.
  rewrite (reduce_count_tokens ts recs order Hperm Hiter).
  unfold count_words. apply count_tokens_perm.
  unfold ts. rewrite concat_fmap_map, split_whitespace_groups.
  rewrite <- split_whitespace_lines. apply Permutation_map.
  by apply concat_fmap_perm.
Qed.

Lemma split_count_merge_witness :
  reduce_records (map_to_list <$> (count_words <$> ["a b"+:+ String "010"%char EmptyString;
                                                   "b"+:+ String "010"%char EmptyString]))
    = count_words ("a b" +:+ String "010"%char "b").
Proof.
  apply (split_count_merge ("a b" +:+ String "010"%char "b") 2
           ["a b"+:+ String "010"%char EmptyString; "b"+:+ String "010"%char EmptyString]
           (count_words <$> ["a b"+:+ String "010"%char EmptyString;
                             "b"+:+ String "010"%char EmptyString]));
    [lia|vm_compute; reflexivity|done|].
  apply Forall2_fmap_l. apply Forall_Forall2_diag. apply Forall_forall. intros x _. simpl. apply Permutation_refl.
Defined.

(** X2: the counts of [count_words] add up to the number of tokens of the
    text. *)
Theorem count_words_sum (text : string)
    (Hlen : N.of_nat (String.length text) < usize_bound) :
  sum_counts (map_to_list (count_words text)) = N.of_nat (length (split_whitespace text)).
Proof.
  unfold count_words. rewrite count_tokens_sum; rewrite length_map; [done|].
  pose proof (split_whitespace_length text). lia.
Qed.

Lemma count_words_sum_witness :
  N.of_nat (String.length "to be or not to be") < usize_bound /\
  sum_counts (map_to_list (count_words "to be or not to be")) = 6.
Proof.
  assert (H : N.of_nat (String.length "to be or not to be") < usize_bound)
    by (vm_compute; reflexivity).
  split; [exact H|]. rewrite (count_words_sum _ H). reflexivity.
Defined.

(** X3: every key of [count_words] is non-empty, has no whitespace and is
    already lowercase. *)
Theorem count_words_keys (text w : string) (c : N) (Hw : count_words text !! w = Some c) :
  w <> EmptyString /\ no_ws w = true /\ to_lowercase w = w.
Proof.
  destruct (count_words_entry text w c Hw) as (H1 & H2 & H3 & _). done.
Qed.

Lemma count_words_keys_witness :
  count_words "Hello hello" !! "hello" = Some 2 /\ no_ws "hello" = true.
Proof.
  assert (H : count_words "Hello hello" !! "hello" = Some 2) by (vm_compute; reflexivity).
  split; [exact H|]. apply (count_words_keys _ _ _ H).
Defined.

(** X4: a map computed by [count_words], written as an intermediate
    record in any iteration order, reads back as the same map. *)
Theorem count_words_record_roundtrip (fs : fsys) (name text : string)
    (es : list (string * N)) (Hes : es ≡ₚ map_to_list (count_words text)) :
  read_map_result (write_map_result fs name es) name = Ok (count_words text).
Proof.
  unfold read_map_result, write_map_result. rewrite lookup_insert_eq.
  assert (Hgood : Forall (fun e => e.1 <> EmptyString /\ no_ws e.1 = true /\ e.2 < usize_bound) es).
  { apply Forall_forall. intros [w c] Hin. rewrite Hes in Hin.
    apply elem_of_map_to_list in Hin.
    destruct (count_words_entry text w c Hin) as (? & ? & _ & ?). done. }
  unfold read_contents. rewrite lines_render.
  - rewrite read_lines_bodies by done. f_equal. by apply foldl_insert_entry_map.
  - eapply Forall_impl; [exact Hgood|]. naive_solver.
Qed.

Lemma count_words_record_roundtrip_witness :
  read_map_result (write_map_result ∅ "map_0.txt" (map_to_list (count_words "A b a")))
    "map_0.txt" = Ok (count_words "A b a").
Proof. by apply count_words_record_roundtrip. Defined.

(** X5: [count_words] gives the empty map exactly for a text made of
    whitespace only (the empty text included). *)
Theorem count_words_empty (text : string) :
  count_words text = ∅ <-> all_ws text = true.
Proof.
  rewrite <- split_whitespace_nil. unfold count_words. split.
  - intros Hm. destruct (split_whitespace text) as [|t ts] eqn:Ht; [done|].
    exfalso. destruct (count_tokens_lookup (map to_lowercase (t :: ts)) (to_lowercase t))
      as [_ Hi].
    rewrite keys_ones, Hm, lookup_empty in Hi.
    destruct (proj2 Hi (list_elem_of_here _ _)) as [? Hx]. discriminate.
  - intros ->. reflexivity.
Qed.

(** ** split_file with no chunk *)

(** X6: with [num_chunks = 0] the chunker returns an empty vector for an
    input with no line, and panics (indexing the empty vector) on any input
    with a line. *)
Theorem split_file_zero_chunks (ls : list string) :
  split_file ls 0 = match ls with [] => Some [] | _ :: _ => None end.
Proof. destruct ls; reflexivity. Qed.

(** ** write_final_result *)

Lemma substring_zero (n : nat) (s : string) : substring n 0 s = EmptyString.
Proof.
  revert n. induction s as [|c s IH]; intros [|n]; simpl; try done.
Qed.

Lemma render_record_props (m : gmap string N) (es : list (string * N)) :
  map_Forall (fun w c => w <> EmptyString /\ no_ws w = true /\ c < usize_bound) m ->
  es ≡ₚ map_to_list m ->
  read_contents (render es) = m.
Proof.
  intros Hkeys Hes.
  assert (Hgood : Forall (fun e => e.1 <> EmptyString /\ no_ws e.1 = true /\ e.2 < usize_bound) es).
  { apply Forall_forall. intros [w c] Hin. rewrite Hes in Hin.
    apply elem_of_map_to_list in Hin. apply (Hkeys w c Hin). }
  unfold read_contents. rewrite lines_render.
  - rewrite read_lines_bodies by done. by apply foldl_insert_entry_map.
  - eapply Forall_impl; [exact Hgood|]. naive_solver.
Qed.

(** X8: when there is no previous result file, or it is not longer than
    the new text, the final result file holds exactly the records of the
    aggregate, and reading it back as a record gives the aggregate (tokens
    non-empty and free of whitespace). *)
Theorem write_final_result_fresh (fs : fsys) (m : gmap string N) (es : list (string * N))
    (Hold : (String.length (default EmptyString (fs !! final_file))
             <= String.length (render es))%nat)
    (Hkeys : map_Forall (fun w c => w <> EmptyString /\ no_ws w = true /\ c < usize_bound) m)
    (Hes : es ≡ₚ map_to_list m) :
  write_final_result fs es !! final_file = Some (render es) /\
  read_map_result (write_final_result fs es) final_file = Ok m.
Proof.
  assert (Hw : write_final_result fs es !! final_file = Some (render es)).
  { unfold write_final_result. rewrite lookup_insert_eq. f_equal.
    unfold overwrite_from_start.
    replace (String.length (default EmptyString (fs !! final_file)) - String.length (render es))%nat
      with 0%nat by lia.
    by rewrite substring_zero, string_app_nil_r. }
  split; [done|]. unfold read_map_result. rewrite Hw. f_equal.
  by apply render_record_props.
Qed.

Lemma write_final_result_fresh_witness :
  read_map_result (write_final_result ∅ (map_to_list (count_words "a b a"))) final_file
    = Ok (count_words "a b a").
Proof.
  apply (write_final_result_fresh ∅ (count_words "a b a")).
  - rewrite lookup_empty. simpl. lia.
  - apply (bool_decide_unpack _). vm_compute. reflexivity.
  - done.
Defined.

(** ** print_top_words *)

(** X9: the report lists the [n] entries of largest count: every listed
    entry is an entry of the map, no token is listed twice, no entry left
    out has a larger count than a listed one, and when [n] is at least the
    number of tokens every entry is listed. *)
Theorem print_top_words_top (m : gmap string N) (es : list (string * N)) (n : nat)
    (Hes : es ≡ₚ map_to_list m) :
  let sorted := sort_by_count_desc es in
  tail (print_top_words es n) = map top_line (take n sorted) /\
  (forall e, e ∈ take n sorted -> m !! e.1 = Some e.2) /\
  NoDup (take n sorted).*1 /\
  (forall e e', e ∈ take n sorted -> e' ∈ drop n sorted -> e'.2 <= e.2) /\
  ((size m <= n)%nat -> take n sorted ≡ₚ map_to_list m).
Proof.
  intros sorted.
  destruct (sort_from_props es [] (SSorted_nil _)) as (Hp & Hs & _).
  fold (sort_by_count_desc es) in Hp, Hs. fold sorted in Hp, Hs.
  rewrite app_nil_l in Hp. rewrite Hes in Hp.
  split_and!.
  - done.
  - intros e He. apply elem_of_take in He as (i & Hi & _).
    apply list_elem_of_lookup_2 in Hi. rewrite Hp in Hi.
    destruct e as [w c]. by apply elem_of_map_to_list.
  - assert (Hnd : NoDup sorted.*1).
    { rewrite Hp. apply NoDup_fst_map_to_list. }
    rewrite <- (take_drop n sorted), fmap_app in Hnd.
    by apply NoDup_app in Hnd as [? _].
  - intros e e' He He'. rewrite <- (take_drop n sorted) in Hs.
    exact (StronglySorted_app_1_elem_of _ _ _ _ _ Hs He He').
  - intros Hn. rewrite take_ge; [done|].
    rewrite (Permutation_length Hp), length_map_to_list. done.
Qed.

Lemma print_top_words_top_witness :
  take 1 (sort_by_count_desc [("b", 1); ("a", 3)]) ≡ₚ [("a", 3)] /\
  (size (<[ "a" := 3%N ]> {[ "b" := 1%N ]} : gmap string N) <= 2)%nat.
Proof.
  split; [vm_compute; reflexivity|].
  destruct (print_top_words_top (<[ "a" := 3%N ]> {[ "b" := 1%N ]}) [("b", 1); ("a", 3)] 2)
    as (_ & _ & _ & _ & Hall); [vm_compute; apply Permutation_swap|].
  vm_compute. lia.
Defined.

(** ** cleanup_intermediate_files *)

Lemma cleanup_loop_app (fails : string -> bool) (fs : fsys) (l1 l2 : list string)
    (att err : list string) :
  cleanup_loop fails fs (l1 ++ l2) att err =
    let o := cleanup_loop fails fs l1 att err in
    cleanup_loop fails (co_fs o) l2 (co_attempted o) (co_stderr o).
Proof.
  revert fs att err. induction l1 as [|x l1 IH]; intros fs att err; [done|].
  simpl. destruct (remove_file fails fs x) as [fs' r]. apply IH.
Qed.

(** X10: when neither occurrence's removal is refused, a name of an
    existing file that occurs twice in the list (as the map pool returns
    for a worker that handled two chunks) is removed at its first
    occurrence, is gone at the end, and its second occurrence is reported
    on stderr as not found, with the text of [io::Error]'s [Display]. *)
Theorem cleanup_duplicate_not_found (fails : string -> bool) (fs : fsys)
    (a b c : list string) (n : string)
    (Hok : fails n = false) (Hfirst : n ∉ a) (Hex : is_Some (fs !! n)) :
  snd (remove_file fails (co_fs (cleanup_loop fails fs a [] [])) n) = Ok tt /\
  co_fs (cleanup_intermediate_files fails fs (a ++ n :: b ++ n :: c)) !! n = None /\
  ("Error deleting file " +:+ n +:+ ": No such file or directory (os error 2)")
    ∈ co_stderr (cleanup_intermediate_files fails fs (a ++ n :: b ++ n :: c)).
Proof.
  unfold cleanup_intermediate_files. split_and!.
  - destruct (cleanup_loop_props fails a fs [] []) as (_ & _ & _ & Hsame & _).
    unfold remove_file. rewrite Hok, (Hsame n Hfirst).
    destruct Hex as [x ->]. reflexivity.
  - destruct (cleanup_loop_props fails (a ++ n :: b ++ n :: c) fs [] [])
      as (_ & _ & Hgone & _).
    apply Hgone; [set_solver|done].
  - destruct (cleanup_loop_log fails (a ++ n :: b ++ n :: c) fs [] []) as (_ & Hdup & _).
    exact (Hdup a n b c eq_refl Hok).
Qed.

Lemma cleanup_duplicate_not_found_witness :
  snd (remove_file (fun _ => false) (co_fs (cleanup_loop (fun _ => false)
         {[ "map_0.txt" := "a 1" ]} [] [] [])) "map_0.txt") = Ok tt /\
  co_fs (cleanup_intermediate_files (fun _ => false) {[ "map_0.txt" := "a 1" ]}
           ["map_0.txt"; "map_0.txt"]) !! "map_0.txt" = None /\
  ("Error deleting file " +:+ "map_0.txt" +:+ ": No such file or directory (os error 2)")
    ∈ co_stderr (cleanup_intermediate_files (fun _ => false) {[ "map_0.txt" := "a 1" ]}
                   ["map_0.txt"; "map_0.txt"]).
Proof.
  apply (cleanup_duplicate_not_found (fun _ => false) {[ "map_0.txt" := "a 1" ]} [] [] []
           "map_0.txt" eq_refl ltac:(set_solver) ltac:(by eexists)).
Defined.

(** X11: a list of distinct names of existing files none of whose removals
    is refused is removed silently: nothing is written to stderr, exactly
    the listed files are gone and every other file is kept. *)
Theorem cleanup_clean_run (fails : string -> bool) (fs : fsys) (names : list string)
    (Hok : forall n, n ∈ names -> fails n = false /\ is_Some (fs !! n))
    (Hnd : NoDup names) :
  let o := cleanup_intermediate_files fails fs names in
  co_stderr o = [] /\
  forall k, co_fs o !! k = if decide (k ∈ names) then None else fs !! k.
Proof.
  unfold cleanup_intermediate_files.
  cut (forall att err, co_stderr (cleanup_loop fails fs names att err) = err /\
         forall k, co_fs (cleanup_loop fails fs names att err) !! k
                   = if decide (k ∈ names) then None else fs !! k);
    [intros H; apply H|].
  revert fs Hok. induction Hnd as [|x names Hx Hnd IH]; intros fs Hok att err.
  - split; [done|]. intros k. rewrite decide_False by set_solver. done.
  - simpl. destruct (Hok x ltac:(set_solver)) as [Hf [c Hc]].
    unfold remove_file. rewrite Hf, Hc.
    destruct (IH (delete x fs)) with (att := att ++ [x]) (err := err) as [Herr Hk].
    { intros n Hn. destruct (Hok n ltac:(set_solver)) as [Hfn Hsn].
      split; [done|]. rewrite lookup_delete_ne; [done|]. intros ->. contradiction. }
    split; [done|]. intros k. rewrite Hk.
    destruct (decide (k ∈ names)) as [Hin|Hin].
    + rewrite decide_True by set_solver. done.
    + destruct (decide (k = x)) as [->|Hne].
      * rewrite decide_True by set_solver. apply lookup_delete_eq.
      * rewrite decide_False by set_solver. by apply lookup_delete_ne.
Qed.

Lemma cleanup_clean_run_witness :
  co_stderr (cleanup_intermediate_files (fun _ => false)
               {[ "map_0.txt" := "a 1"; "map_1.txt" := "b 1" ]} ["map_0.txt"; "map_1.txt"]) = [].
Proof.
  apply (cleanup_clean_run (fun _ => false) {[ "map_0.txt" := "a 1"; "map_1.txt" := "b 1" ]}
           ["map_0.txt"; "map_1.txt"]).
  - intros n Hn. split; [done|].
    apply elem_of_cons in Hn as [->|Hn]; [by eexists|].
    apply list_elem_of_singleton in Hn as ->. by eexists.
  - apply (bool_decide_unpack _). vm_compute. reflexivity.
Defined.

(** ** UTF-8 text *)

























Lemma read_io_ok (ac : access) (fs : fsys) (n : string) (r : gmap string N) :
  read_map_result_io ac fs n = Ok r -> r = read_contents (default EmptyString (fs !! n)).
Proof.
  unfold read_map_result_io, open_lines, read_lines_io.
  destruct (read_denied ac n); [discriminate|].
  destruct (fs !! n) as [content|]; [|discriminate].
  destruct (forallb utf8_valid (split_newline content)); [|discriminate].
  intros H. injection H as <-. reflexivity.
Qed.


(** ** reduce_phase over the file system *)

(** Reduces the projections of the pool state just stepped to, so that
    a long run keeps the state small. *)
Ltac norm_state := cbn [m_queue m_results m_fs m_workers set_worker r_queue r_agg r_workers].

Lemma sum_list_with_insert {A} (f : A -> nat) (ws : list A) (i : nat) (w w' : A) :
  ws !! i = Some w ->
  (sum_list_with f (<[i := w']> ws) + f w = sum_list_with f ws + f w')%nat.
Proof.
  revert i. induction ws as [|x ws IH]; intros [|i] Hi; simpl in *; try done.
  - injection Hi as ->. lia.
  - specialize (IH i Hi). lia.
Qed.

Lemma concat_fmap_insert {A B} (f : A -> list B) (ws : list A) (i : nat) (w w' : A) :
  ws !! i = Some w ->
  concat (f <$> <[i := w']> ws) ++ f w ≡ₚ concat (f <$> ws) ++ f w'.
Proof.
  revert i. induction ws as [|x ws IH]; intros [|i] Hi; simpl in *; try done.
  - injection Hi as ->. rewrite <- !app_assoc. solve_Permutation.
  - rewrite <- !app_assoc, (IH i Hi). done.
Qed.

Lemma concat_replicate_nil {B} (W : nat) : concat (replicate W ([] : list B)) = [].
Proof. induction W as [|W IH]; simpl; [done|]. by rewrite IH. Qed.

Lemma sum_list_with_replicate_idle (W : nat) :
  sum_list_with rfailed (replicate W RIdle) = 0%nat.
Proof. induction W as [|W IH]; simpl; [done|]. by rewrite IH. Qed.

Lemma reduce_inv_init (ac : access) (fs : fsys) (names : list string) (W : nat) :
  reduce_inv ac fs names W (reduce_init names W).
Proof.
  unfold reduce_inv, reduce_init. cbn [r_workers r_queue r_agg].
  rewrite length_replicate. split; [done|].
  exists [], [], []. rewrite fmap_replicate.
  change (rheld RIdle) with (@nil string).
  rewrite concat_replicate_nil, sum_list_with_replicate_idle.
  split_and!; try done.
  - by rewrite !app_nil_r.
  - apply Forall_replicate. done.
  - intros Hs. apply elem_of_replicate in Hs. naive_solver.
Qed.

Lemma reduce_inv_step (ac : access) (fs : fsys) (names : list string) (W : nat) (s s' : rstate) :
  reduce_step ac fs s s' -> reduce_inv ac fs names W s -> reduce_inv ac fs names W s'.
Proof.
  intros Hstep (Hlen & merged & order & lost & Hp & Hm & Hagg & Hlost & Hcnt & Hws & Hstop).
  destruct Hstep as [s i q n Hi Hq|s i Hi Hq|s i n r Hi Hr|s i n e Hi Hr|s i n r es Hi Hes];
    unfold reduce_inv; simpl in *; (split; [by rewrite length_insert|]).
  - exists merged, order, lost.
    pose proof (concat_fmap_insert rheld _ i _ (RPopped n) Hi) as Hh. simpl in Hh.
    rewrite app_nil_r in Hh.
    split_and!; try done.
    + rewrite Hp, Hq, Hh. solve_Permutation.
    + pose proof (sum_list_with_insert rfailed _ i _ (RPopped n) Hi) as Hs. simpl in Hs. lia.
    + by apply Forall_insert.
    + intros Hin. apply elem_of_insert_inv in Hin as [Hin|Hin]; [done|].
      rewrite (Hstop Hin) in Hq. by destruct q.
  - exists merged, order, lost.
    pose proof (concat_fmap_insert rheld _ i _ RStopped Hi) as Hh. simpl in Hh.
    rewrite !app_nil_r in Hh.
    split_and!; try done.
    + by rewrite Hp, <- Hh.
    + pose proof (sum_list_with_insert rfailed _ i _ RStopped Hi) as Hs. simpl in Hs. lia.
    + by apply Forall_insert.
  - exists merged, order, lost.
    pose proof (concat_fmap_insert rheld _ i _ (RRead n r) Hi) as Hh. simpl in Hh.
    apply Permutation_app_inv_r in Hh.
    split_and!; try done.
    + by rewrite Hp, <- Hh.
    + pose proof (sum_list_with_insert rfailed _ i _ (RRead n r) Hi) as Hs. simpl in Hs. lia.
    + by apply Forall_insert.
    + intros Hin. apply elem_of_insert_inv in Hin as [Hin|Hin]; [done|]. by apply Hstop.
  - exists merged, order, (n :: lost).
    pose proof (concat_fmap_insert rheld _ i _ (RFailed e) Hi) as Hh. simpl in Hh.
    rewrite app_nil_r in Hh.
    assert (Hn : n ∈ names).
    { rewrite Hp, <- Hh. set_solver. }
    split_and!; try done.
    + rewrite Hp, <- Hh. solve_Permutation.
    + constructor; [by exists e|done].
    + pose proof (sum_list_with_insert rfailed _ i _ (RFailed e) Hi) as Hs.
      simpl in Hs |- *. lia.
    + apply Forall_insert; [done|]. by exists n.
    + intros Hin. apply elem_of_insert_inv in Hin as [Hin|Hin]; [done|]. by apply Hstop.
  - pose proof (Forall_lookup_1 _ _ _ _ Hws Hi) as Hr. simpl in Hr.
    exists (merged ++ [n]), (order ++ [es]), lost.
    pose proof (concat_fmap_insert rheld _ i _ RIdle Hi) as Hh. simpl in Hh.
    rewrite app_nil_r in Hh.
    split_and!; try done.
    + rewrite Hp, <- Hh. solve_Permutation.
    + apply Forall2_app; [done|]. constructor; [|constructor]. by exists r.
    + unfold reduce_records. rewrite foldl_app. simpl. by rewrite Hagg.
    + pose proof (sum_list_with_insert rfailed _ i _ RIdle Hi) as Hs. simpl in Hs. lia.
    + by apply Forall_insert.
    + intros Hin. apply elem_of_insert_inv in Hin as [Hin|Hin]; [done|]. by apply Hstop.
Qed.

Lemma reduce_inv_rtc (ac : access) (fs : fsys) (names : list string) (W : nat) (s : rstate) :
  rtc (reduce_step ac fs) (reduce_init names W) s -> reduce_inv ac fs names W s.
Proof.
  intros Hrtc. remember (reduce_init names W) as s0 eqn:E.
  assert (Hinv : reduce_inv ac fs names W s0) by (subst; apply reduce_inv_init).
  clear E. induction Hrtc as [s0|s0 s1 s2 Hst _ IH]; [done|].
  apply IH. by eapply reduce_inv_step.
Qed.

Lemma join_reduce_none (ws : list rworker) :
  join_reduce ws = None -> sum_list_with rfailed ws = 0%nat.
Proof.
  induction ws as [|w ws IH]; [done|]. destruct w; simpl; try done; auto.
Qed.

Lemma join_reduce_some (ws : list rworker) (e : io_error) :
  join_reduce ws = Some e -> RFailed e ∈ ws.
Proof.
  induction ws as [|w ws IH]; [done|].
  destruct w; simpl; intros H; try (right; by apply IH).
  inversion H; subst. left.
Qed.

Lemma done_no_failed_stopped (ws : list rworker) :
  Forall (fun w => w = RStopped \/ exists e, w = RFailed e) ws ->
  sum_list_with rfailed ws = 0%nat ->
  Forall (fun w => w = RStopped) ws.
Proof.
  induction 1 as [|w ws [->|[e ->]] _ IH]; simpl; intros H; [done| |lia].
  constructor; [done|]. by apply IH.
Qed.

Lemma concat_rheld_stopped (ws : list rworker) :
  Forall (fun w => w = RStopped) ws -> concat (rheld <$> ws) = [].
Proof. induction 1 as [|w ws -> _ IH]; [done|]. rewrite fmap_cons. simpl. done. Qed.

(** The outcomes of a joined run of the reduce pool with at least one
    worker: the read error of a listed file, or the merge of every listed
    record exactly once, in some order. *)
Lemma reduce_phase_cases (ac : access) (fs : fsys) (names : list string) (W : nat)
    (res : io_result (gmap string N)) :
  (0 < W)%nat ->
  reduce_phase ac fs names W res ->
  (exists e, res = Err e /\ exists n, n ∈ names /\ read_map_result_io ac fs n = Err e) \/
  (exists merged order, res = Ok (reduce_records order) /\ names ≡ₚ merged /\
     Forall2 (fun n es => exists r, read_map_result_io ac fs n = Ok r /\ es ≡ₚ map_to_list r)
       merged order).
Proof.
  intros HW (s & Hrtc & Hdone & ->).
  destruct (reduce_inv_rtc ac fs names W s Hrtc)
    as (Hlen & merged & order & lost & Hp & Hm & Hagg & Hlost & Hcnt & Hws & Hstop).
  unfold reduce_outcome. destruct (join_reduce (r_workers s)) as [e|] eqn:Hj.
  - left. exists e. split; [done|]. apply join_reduce_some in Hj.
    exact (proj1 (Forall_forall _ _) Hws _ Hj).
  - right. apply join_reduce_none in Hj. rewrite Hj in Hcnt. destruct lost; [|done].
    pose proof (done_no_failed_stopped _ Hdone Hj) as Hst.
    rewrite (concat_rheld_stopped _ Hst) in Hp.
    destruct (r_workers s) as [|w ws] eqn:Ew; [simpl in Hlen; lia|].
    apply Forall_cons in Hst as [-> _].
    rewrite Hstop in Hp by left.
    rewrite !app_nil_r in Hp. simpl in Hp.
    exists merged, order. rewrite Hagg. done.
Qed.

Lemma forall2_read_fmap (ac : access) (fs : fsys) (names : list string)
    (recs : list (gmap string N)) :
  Forall2 (fun n r => read_map_result_io ac fs n = Ok r) names recs ->
  recs = (fun n => read_contents (default EmptyString (fs !! n))) <$> names.
Proof.
  induction 1 as [|n r names recs Hr _ IH]; [done|].
  rewrite fmap_cons, IH. f_equal. by apply (read_io_ok ac).
Qed.

Lemma forall2_merged_order (ac : access) (fs : fsys) (merged : list string)
    (order : list (list (string * N))) :
  Forall2 (fun n es => exists r, read_map_result_io ac fs n = Ok r /\ es ≡ₚ map_to_list r)
    merged order ->
  Forall2 (fun es r => es ≡ₚ map_to_list r) order
    ((fun n => read_contents (default EmptyString (fs !! n))) <$> merged).
Proof.
  induction 1 as [|n es merged order (r & Hr & Hes) _ IH]; [constructor|].
  rewrite fmap_cons. constructor; [|done].
  by rewrite <- (read_io_ok ac fs n r Hr).
Qed.

Lemma reduce_init_stuck (ac : access) (fs : fsys) (names : list string) (s : rstate) :
  rtc (reduce_step ac fs) (reduce_init names 0) s -> s = reduce_init names 0.
Proof.
  intros Hrtc. inversion Hrtc as [|x y z Hst _]; [done|].
  exfalso. inversion Hst; simpl in *; match goal with H : [] !! _ = Some _ |- _ => done end.
Qed.

(** A run of the reduce pool with one worker over a record file whose
    bytes are not UTF-8: the worker pops the name, the read fails with
    [InvalidData] and the worker ends. *)
Lemma reduce_run_invalid :
  reduce_phase full_access
    {[ "map_0.txt" := String "255"%char (String "010"%char EmptyString) ]}
    ["map_0.txt"] 1 (Err InvalidData).
Proof.
  eexists. split; [|split].
  - eapply rtc_l; [eapply (rstep_pop _ _ _ 0 [] "map_0.txt"); reflexivity|].
    eapply rtc_l; [eapply (rstep_fail _ _ _ 0 "map_0.txt" InvalidData); reflexivity|].
    apply rtc_refl.
  - simpl. constructor; [right; by eexists|constructor].
  - reflexivity.
Qed.

(** A run of the reduce pool with two workers over two record files, the
    first one listed twice: worker 0 merges [map_0.txt] twice, worker 1
    merges [map_1.txt]. *)
Lemma reduce_run_two_files :
  exists res, reduce_phase full_access
    {[ "map_0.txt" := "a 2" +:+ String "010"%char EmptyString;
       "map_1.txt" := "a 1" +:+ String "010"%char ("b 3" +:+ String "010"%char EmptyString) ]}
    ["map_0.txt"; "map_1.txt"; "map_0.txt"] 2 res.
Proof.
  eexists. eexists. split; [|split].
  - eapply rtc_l; [eapply (rstep_pop _ _ _ 0 ["map_0.txt"; "map_1.txt"] "map_0.txt"); reflexivity|]; norm_state.
    eapply rtc_l; [eapply (rstep_pop _ _ _ 1 ["map_0.txt"] "map_1.txt"); reflexivity|]; norm_state.
    eapply rtc_l; [eapply (rstep_read _ _ _ 0 "map_0.txt"); reflexivity|]; norm_state.
    eapply rtc_l; [eapply (rstep_read _ _ _ 1 "map_1.txt"); reflexivity|]; norm_state.
    eapply rtc_l; [eapply (rstep_merge _ _ _ 1 "map_1.txt" _ (map_to_list _)); [reflexivity|done]|]; norm_state.
    eapply rtc_l; [eapply (rstep_merge _ _ _ 0 "map_0.txt" _ (map_to_list _)); [reflexivity|done]|]; norm_state.
    eapply rtc_l; [eapply (rstep_pop _ _ _ 0 [] "map_0.txt"); reflexivity|]; norm_state.
    eapply rtc_l; [eapply (rstep_read _ _ _ 0 "map_0.txt"); reflexivity|]; norm_state.
    eapply rtc_l; [eapply (rstep_merge _ _ _ 0 "map_0.txt" _ (map_to_list _)); [reflexivity|done]|]; norm_state.
    eapply rtc_l; [eapply (rstep_stop _ _ _ 0); reflexivity|]; norm_state.
    eapply rtc_l; [eapply (rstep_stop _ _ _ 1); reflexivity|]; norm_state.
    apply rtc_refl.
  - simpl. repeat (constructor; [by left|]). constructor.
  - reflexivity.
Qed.

(** X12: with at least one reduce worker, [reduce_phase] fails exactly when
    one of the listed record files does not read (it is missing, may not
    be opened, or is not UTF-8), and the error it returns is the read error
    of one of the listed files. *)
Theorem reduce_phase_error (ac : access) (fs : fsys) (names : list string) (W : nat)
    (res : io_result (gmap string N))
    (HW : (0 < W)%nat) (Hrun : reduce_phase ac fs names W res) :
  (forall e, res = Err e -> exists n, n ∈ names /\ read_map_result_io ac fs n = Err e) /\
  ((exists e, res = Err e) <-> exists n e, n ∈ names /\ read_map_result_io ac fs n = Err e).
Proof.
  destruct (reduce_phase_cases ac fs names W res HW Hrun)
    as [(e & -> & n & Hn & Hr)|(merged & order & -> & Hp & Hm)].
  - split.
    + intros e' He'. injection He' as <-. by exists n.
    + split; [intros _; by exists n, e|intros _; by exists e].
  - split; [intros e He; discriminate|].
    split; [intros (e & He); discriminate|].
    intros (n & e & Hn & Hr). exfalso. rewrite Hp in Hn.
    apply list_elem_of_lookup in Hn as [j Hj].
    destruct (Forall2_lookup_l _ _ _ _ _ Hm Hj) as (es & _ & r & Hr' & _).
    congruence.
Qed.

Lemma reduce_phase_error_witness :
  exists n, n ∈ ["map_0.txt"] /\
    read_map_result_io full_access
      {[ "map_0.txt" := String "255"%char (String "010"%char EmptyString) ]} n
    = Err InvalidData.
Proof.
  apply (proj1 (reduce_phase_error full_access _ ["map_0.txt"] 1 (Err InvalidData)
                  ltac:(lia) reduce_run_invalid)).
  reflexivity.
Defined.

(** X13: with at least one reduce worker, when every listed record file
    reads as a map, [reduce_phase] succeeds, and its result maps a token to
    the sum of its counts over the listed files (a file listed twice
    counted twice), wrapped to [usize], and has no other key. *)
Theorem reduce_phase_sum (ac : access) (fs : fsys) (names : list string) (W : nat)
    (recs : list (gmap string N)) (res : io_result (gmap string N))
    (HW : (0 < W)%nat) (Hrun : reduce_phase ac fs names W res)
    (Hread : Forall2 (fun n r => read_map_result_io ac fs n = Ok r) names recs) :
  exists agg, res = Ok agg /\
    forall w, agg !! w =
      if decide (Exists (fun r => is_Some (r !! w)) recs)
      then Some (total w recs mod usize_bound) else None.
Proof.
  destruct (reduce_phase_cases ac fs names W res HW Hrun)
    as [(e & _ & n & Hn & Hr)|(merged & order & -> & Hp & Hm)].
  - exfalso. apply list_elem_of_lookup in Hn as [j Hj].
    destruct (Forall2_lookup_l _ _ _ _ _ Hread Hj) as (r & _ & Hr'). congruence.
  - eexists. split; [reflexivity|]. intros w.
    rewrite (forall2_read_fmap _ _ _ _ Hread).
    apply (reduce_records_lookup _ ((fun n => read_contents (default EmptyString (fs !! n))) <$> merged)).
    + by rewrite Hp.
    + by apply (forall2_merged_order ac).
Qed.

Lemma reduce_phase_sum_witness :
  exists agg,
    reduce_phase full_access
      {[ "map_0.txt" := "a 2" +:+ String "010"%char EmptyString;
         "map_1.txt" := "a 1" +:+ String "010"%char ("b 3" +:+ String "010"%char EmptyString) ]}
      ["map_0.txt"; "map_1.txt"; "map_0.txt"] 2 (Ok agg) /\
    agg !! "a" = Some 5 /\ agg !! "b" = Some 3 /\ agg !! "c" = None.
Proof.
  destruct reduce_run_two_files as [res Hrun].
  destruct (reduce_phase_sum full_access _ _ 2
              [read_contents ("a 2" +:+ String "010"%char EmptyString);
               read_contents ("a 1" +:+ String "010"%char ("b 3" +:+ String "010"%char EmptyString));
               read_contents ("a 2" +:+ String "010"%char EmptyString)]
              res ltac:(lia) Hrun) as (agg & -> & Hagg).
  { repeat constructor. }
  exists agg. split_and!; [exact Hrun|..]; rewrite Hagg; vm_compute; reflexivity.
Defined.

(** X14: with no reduce worker, [reduce_phase] reads no file and returns an
    empty map, whatever names it is given. *)
Theorem reduce_phase_no_workers (ac : access) (fs : fsys) (names : list string)
    (res : io_result (gmap string N)) (Hrun : reduce_phase ac fs names 0 res) :
  res = Ok ∅.
Proof.
  destruct Hrun as (s & Hrtc & _ & ->).
  apply reduce_init_stuck in Hrtc as ->. reflexivity.
Qed.

Lemma reduce_phase_no_workers_witness : reduce_outcome (reduce_init ["map_0.txt"] 0) = Ok ∅.
Proof.
  apply (reduce_phase_no_workers full_access ∅ ["map_0.txt"]).
  exists (reduce_init ["map_0.txt"] 0). split; [apply rtc_refl|]. split; [constructor|done].
Defined.

(** ** map_phase: the files it writes *)

Lemma string_length_app (a b : string) :
  String.length (a +:+ b) = (String.length a + String.length b)%nat.
Proof.
  induction a as [|c a IH]; [by rewrite string_app_nil_l|].
  rewrite string_app_cons. cbn [String.length]. by rewrite IH.
Qed.

Lemma string_app_inv_l (a b c : string) : a +:+ b = a +:+ c -> b = c.
Proof.
  induction a as [|x a IH]; [by rewrite !string_app_nil_l|].
  rewrite !string_app_cons. intros H. injection H as H. by apply IH.
Qed.

Lemma string_app_inv_r (a b s : string) : a +:+ s = b +:+ s -> a = b.
Proof.
  revert b. induction a as [|x a IH]; intros [|y b] H; [done| | |].
  - apply (f_equal String.length) in H.
    rewrite ?string_app_nil_l, ?string_app_cons in H. cbn [String.length] in H.
    rewrite ?string_length_app in H. lia.
  - apply (f_equal String.length) in H.
    rewrite ?string_app_nil_l, ?string_app_cons in H. cbn [String.length] in H.
    rewrite ?string_length_app in H. lia.
  - rewrite !string_app_cons in H. injection H as -> H. f_equal. by apply IH.
Qed.

Lemma show_usize_inj (a b : N) : show_usize a = show_usize b -> a = b.
Proof.
  intros H. unfold show_usize in H.
  pose proof (NilZero.usu (N.to_uint a) (to_uint_nonnil a)) as Ha.
  rewrite H, NilZero.usu in Ha by apply to_uint_nonnil.
  injection Ha as Ha.
  rewrite <- (DecimalN.Unsigned.of_to a), <- (DecimalN.Unsigned.of_to b), Ha. done.
Qed.

Lemma map_name_inj (i j : nat) : map_name i = map_name j -> i = j.
Proof.
  unfold map_name. intros H. apply string_app_inv_l, string_app_inv_r, show_usize_inj in H.
  by apply Nat2N.inj.
Qed.

Lemma list_lookup_insert_some {A} (l : list A) (i j : nat) (w x y : A) :
  l !! i = Some w -> <[i := x]> l !! j = Some y ->
  (j = i /\ y = x) \/ (j <> i /\ l !! j = Some y).
Proof.
  intros Hi Hj. destruct (decide (j = i)) as [->|Hne].
  - left. rewrite list_lookup_insert_eq in Hj; [|by eapply lookup_lt_Some].
    split; congruence.
  - right. rewrite list_lookup_insert_ne in Hj by congruence. done.
Qed.

Lemma map_files_inv_init (ac : access) (chunks : list string) (M : nat) (fs : fsys) :
  map_files_inv ac chunks M fs (map_init chunks M fs).
Proof.
  unfold map_files_inv, map_init. cbn [m_workers m_queue m_results m_fs].
  split_and!.
  - apply length_replicate.
  - exists []. by rewrite app_nil_r.
  - intros i text Hi. apply lookup_replicate in Hi as [? _]. discriminate.
  - intros i [Hi|Hi]; [apply lookup_replicate in Hi as [? _]; discriminate|].
    by apply elem_of_nil in Hi.
  - intros i e Hi. apply lookup_replicate in Hi as [? _]. discriminate.
  - done.
Qed.

Lemma map_files_inv_step (ac : access) (chunks : list string) (M : nat) (fs0 : fsys)
    (s s' : mstate) :
  map_step ac s s' -> map_files_inv ac chunks M fs0 s -> map_files_inv ac chunks M fs0 s'.
Proof.
  intros Hstep (Hlen & [rest Hrest] & Hpop & Hfile & Hfail & Hkeep).
  destruct Hstep as [s i q c Hi Hq|s i Hi Hq|s i text es Hi Hw Hes|s i text e Hi Hw|s i Hi];
    unfold map_files_inv, set_worker; cbn [m_workers m_queue m_results m_fs] in *;
    (split; [by rewrite length_insert|]).
  - split_and!.
    + exists (c :: rest). by rewrite Hrest, Hq, <- app_assoc.
    + intros j t Hj. destruct (list_lookup_insert_some _ _ _ _ _ _ Hi Hj) as [[-> Ht]|[_ Hj']].
      * injection Ht as ->. rewrite Hrest, Hq. set_solver.
      * by apply (Hpop j).
    + intros j Hj. apply Hfile.
      destruct Hj as [Hj|Hj]; [|by right]. left.
      destruct (list_lookup_insert_some _ _ _ _ _ _ Hi Hj) as [[_ ?]|[_ ?]]; done.
    + intros j e Hj. destruct (list_lookup_insert_some _ _ _ _ _ _ Hi Hj) as [[_ ?]|[_ Hj']];
        [done|by apply Hfail].
    + done.
  - split_and!.
    + by exists rest.
    + intros j t Hj. destruct (list_lookup_insert_some _ _ _ _ _ _ Hi Hj) as [[_ ?]|[_ Hj']];
        [done|by apply (Hpop j)].
    + intros j Hj. apply Hfile.
      destruct Hj as [Hj|Hj]; [|by right]. left.
      destruct (list_lookup_insert_some _ _ _ _ _ _ Hi Hj) as [[_ ?]|[_ ?]]; done.
    + intros j e Hj. destruct (list_lookup_insert_some _ _ _ _ _ _ Hi Hj) as [[_ ?]|[_ Hj']];
        [done|by apply Hfail].
    + done.
  - assert (HiM : (i < M)%nat) by (rewrite <- Hlen; by eapply lookup_lt_Some).
    split_and!.
    + by exists rest.
    + intros j t Hj. destruct (list_lookup_insert_some _ _ _ _ _ _ Hi Hj) as [[_ ?]|[_ Hj']];
        [done|by apply (Hpop j)].
    + intros j Hj. destruct (decide (j = i)) as [->|Hne].
      * exists text, es. split_and!; [by apply (Hpop i)|done|].
        unfold write_map_result. apply lookup_insert_eq.
      * assert (Hj' : m_workers s !! j = Some Wrote \/ map_name j ∈ m_results s).
        { destruct Hj as [Hj|Hj]; [|by right]. left.
          rewrite list_lookup_insert_ne in Hj by congruence. done. }
        destruct (Hfile j Hj') as (c & es' & Hc & Hes' & Hf).
        exists c, es'. split_and!; [done|done|].
        unfold write_map_result. rewrite lookup_insert_ne; [done|].
        intros Heq. apply map_name_inj in Heq. congruence.
    + intros j e Hj. destruct (list_lookup_insert_some _ _ _ _ _ _ Hi Hj) as [[_ ?]|[_ Hj']];
        [done|by apply Hfail].
    + intros name Hname. unfold write_map_result.
      rewrite lookup_insert_ne; [by apply Hkeep|]. intros Heq. exact (Hname i HiM (eq_sym Heq)).
  - split_and!.
    + by exists rest.
    + intros j t Hj. destruct (list_lookup_insert_some _ _ _ _ _ _ Hi Hj) as [[_ ?]|[_ Hj']];
        [done|by apply (Hpop j)].
    + intros j Hj. apply Hfile.
      destruct Hj as [Hj|Hj]; [|by right]. left.
      destruct (list_lookup_insert_some _ _ _ _ _ _ Hi Hj) as [[_ ?]|[_ ?]]; done.
    + intros j e' Hj. destruct (list_lookup_insert_some _ _ _ _ _ _ Hi Hj) as [[-> Ht]|[_ Hj']].
      * injection Ht as ->. done.
      * by apply Hfail.
    + done.
  - split_and!.
    + by exists rest.
    + intros j t Hj. destruct (list_lookup_insert_some _ _ _ _ _ _ Hi Hj) as [[_ ?]|[_ Hj']];
        [done|by apply (Hpop j)].
    + intros j Hj. destruct (decide (j = i)) as [->|Hne]; [apply Hfile; by left|].
      apply Hfile. destruct Hj as [Hj|Hj].
      * left. rewrite list_lookup_insert_ne in Hj by congruence. done.
      * right. apply elem_of_app in Hj as [Hj|Hj]; [done|].
        apply list_elem_of_singleton in Hj. apply map_name_inj in Hj. congruence.
    + intros j e Hj. destruct (list_lookup_insert_some _ _ _ _ _ _ Hi Hj) as [[_ ?]|[_ Hj']];
        [done|by apply Hfail].
    + done.
Qed.

Lemma map_files_inv_rtc (ac : access) (chunks : list string) (M : nat) (fs : fsys) (s : mstate) :
  rtc (map_step ac) (map_init chunks M fs) s -> map_files_inv ac chunks M fs s.
Proof.
  intros Hrtc. remember (map_init chunks M fs) as s0 eqn:E.
  assert (Hinv : map_files_inv ac chunks M fs s0) by (subst; apply map_files_inv_init).
  clear E. induction Hrtc as [s0|s0 s1 s2 Hst _ IH]; [done|].
  apply IH. by eapply map_files_inv_step.
Qed.








(** X16: the map pool writes no file but the [map_k.txt] of its worker
    slots [k < M]: every other file is as before the run. *)
Theorem map_phase_other_files (ac : access) (chunks : list string) (M : nat) (fs : fsys)
    (s : mstate) (name : string) (Hmap : map_phase ac chunks M fs s)
    (Hname : forall k, (k < M)%nat -> name <> map_name k) :
  m_fs s !! name = fs !! name.
Proof.
  destruct Hmap as [Hrtc _].
  destruct (map_files_inv_rtc ac chunks M fs s Hrtc) as (_ & _ & _ & _ & _ & Hkeep).
  by apply Hkeep.
Qed.

Lemma map_phase_other_files_witness :
  write_map_result
    (write_map_result ∅ (map_name 0)
       (map_to_list (count_words ("b" +:+ String "010"%char EmptyString))))
    (map_name 0) (map_to_list (count_words ("a" +:+ String "010"%char EmptyString)))
    !! final_file = (∅ : fsys) !! final_file.
Proof.
  apply (map_phase_other_files full_access _ 1 ∅ _ final_file map_phase_one_worker_run).
  intros k Hk. replace k with 0%nat by lia. discriminate.
Defined.

(** ** main *)





Lemma main_file_not_map_name (k : nat) : main_file_path <> map_name k.
Proof. unfold main_file_path, map_name. rewrite !string_app_cons. discriminate. Qed.



Lemma map_phase_result_names (ac : access) (chunks : list string) (M : nat) (fs : fsys)
    (s : mstate) (name : string) :
  map_phase ac chunks M fs s -> name ∈ m_results s ->
  exists k, (k < M)%nat /\ name = map_name k.
Proof.
  intros [Hrtc _] Hn. destruct (map_inv_rtc ac chunks M fs s Hrtc) as (_ & _ & Hnames & _).
  rewrite Forall_forall in Hnames. by apply Hnames.
Qed.





(** A run of [main] on the input "a b\na\n": the input splits into the
    chunks "a b\n", "a\n", "" and "", each map worker takes one of them,
    and reduce worker 0 merges the four records. *)
Lemma main_run_two_lines :
  exists out,
    main_run full_access (fun _ => false)
      {[ main_file_path := "a b" +:+ String "010"%char ("a" +:+ String "010"%char EmptyString) ]}
      out /\
    mo_stdout out = ["Top 10 words:"; "a: 2"; "b: 1"].
Proof.
  eexists. split.
  - eapply (main_ok _ _ _ ["a b"; "a"]
              ["a b" +:+ String "010"%char EmptyString; "a" +:+ String "010"%char EmptyString;
               EmptyString; EmptyString] _ _ _ [("a", 2); ("b", 1)]);
      [reflexivity|reflexivity| | |reflexivity|reflexivity|]; norm_state.
    + split.
      * eapply rtc_l; [eapply (step_pop _ _ 0
                         ["a b" +:+ String "010"%char EmptyString; "a" +:+ String "010"%char EmptyString;
                          EmptyString] EmptyString); reflexivity|]; norm_state.
        eapply rtc_l; [eapply (step_pop _ _ 1
                         ["a b" +:+ String "010"%char EmptyString; "a" +:+ String "010"%char EmptyString]
                         EmptyString); reflexivity|]; norm_state.
        eapply rtc_l; [eapply (step_pop _ _ 2 ["a b" +:+ String "010"%char EmptyString]
                         ("a" +:+ String "010"%char EmptyString)); reflexivity|]; norm_state.
        eapply rtc_l; [eapply (step_pop _ _ 3 [] ("a b" +:+ String "010"%char EmptyString));
                       reflexivity|]; norm_state.
        eapply rtc_l; [eapply (step_write _ _ 0); [reflexivity|reflexivity|reflexivity]|]; norm_state.
        eapply rtc_l; [eapply (step_write _ _ 1); [reflexivity|reflexivity|reflexivity]|]; norm_state.
        eapply rtc_l; [eapply (step_write _ _ 2); [reflexivity|reflexivity|reflexivity]|]; norm_state.
        eapply rtc_l; [eapply (step_write _ _ 3); [reflexivity|reflexivity|reflexivity]|]; norm_state.
        eapply rtc_l; [eapply (step_push _ _ 0); reflexivity|]; norm_state.
        eapply rtc_l; [eapply (step_push _ _ 1); reflexivity|]; norm_state.
        eapply rtc_l; [eapply (step_push _ _ 2); reflexivity|]; norm_state.
        eapply rtc_l; [eapply (step_push _ _ 3); reflexivity|]; norm_state.
        eapply rtc_l; [eapply (step_stop _ _ 0); reflexivity|]; norm_state.
        eapply rtc_l; [eapply (step_stop _ _ 1); reflexivity|]; norm_state.
        eapply rtc_l; [eapply (step_stop _ _ 2); reflexivity|]; norm_state.
        eapply rtc_l; [eapply (step_stop _ _ 3); reflexivity|]; norm_state.
        apply rtc_refl.
      * repeat constructor.
    + eexists. split; [|split].
      * eapply rtc_l; [eapply (rstep_pop _ _ _ 0 [map_name 0; map_name 1; map_name 2] (map_name 3));
                       reflexivity|]; norm_state.
        eapply rtc_l; [eapply (rstep_read _ _ _ 0 (map_name 3)); reflexivity|]; norm_state.
        eapply rtc_l; [eapply (rstep_merge _ _ _ 0 (map_name 3) _ (map_to_list _));
                       [reflexivity|done]|]; norm_state.
        eapply rtc_l; [eapply (rstep_pop _ _ _ 0 [map_name 0; map_name 1] (map_name 2));
                       reflexivity|]; norm_state.
        eapply rtc_l; [eapply (rstep_read _ _ _ 0 (map_name 2)); reflexivity|]; norm_state.
        eapply rtc_l; [eapply (rstep_merge _ _ _ 0 (map_name 2) _ (map_to_list _));
                       [reflexivity|done]|]; norm_state.
        eapply rtc_l; [eapply (rstep_pop _ _ _ 0 [map_name 0] (map_name 1)); reflexivity|];
          norm_state.
        eapply rtc_l; [eapply (rstep_read _ _ _ 0 (map_name 1)); reflexivity|]; norm_state.
        eapply rtc_l; [eapply (rstep_merge _ _ _ 0 (map_name 1) _ (map_to_list _));
                       [reflexivity|done]|]; norm_state.
        eapply rtc_l; [eapply (rstep_pop _ _ _ 0 [] (map_name 0)); reflexivity|]; norm_state.
        eapply rtc_l; [eapply (rstep_read _ _ _ 0 (map_name 0)); reflexivity|]; norm_state.
        eapply rtc_l; [eapply (rstep_merge _ _ _ 0 (map_name 0) _ (map_to_list _));
                       [reflexivity|done]|]; norm_state.
        eapply rtc_l; [eapply (rstep_stop _ _ _ 0); reflexivity|]; norm_state.
        eapply rtc_l; [eapply (rstep_stop _ _ _ 1); reflexivity|]; norm_state.
        eapply rtc_l; [eapply (rstep_stop _ _ _ 2); reflexivity|]; norm_state.
        eapply rtc_l; [eapply (rstep_stop _ _ _ 3); reflexivity|]; norm_state.
        apply rtc_refl.
      * simpl. repeat (constructor; [by left|]). constructor.
      * reflexivity.
    + vm_compute. first [reflexivity|apply Permutation_swap].
  - vm_compute. reflexivity.
Qed.


(** X19: [main] changes no file but [final_result.txt] and the
    [map_k.txt] of its map worker slots: the input file and every other
    file are left as they were. *)
Theorem main_other_files (ac : access) (fails : string -> bool) (fs : fsys) (out : main_out)
    (name : string)
    (Hrun : main_run ac fails fs out) (Hfinal : name <> final_file)
    (Hmap : forall k, (k < main_num_map_workers)%nat -> name <> map_name k) :
  mo_fs out !! name = fs !! name.
Proof.
  destruct Hrun as [e0 Hin|ls Hin Hsplit|ls chunks s s' e0 Hin Hsplit Hrtc Hjoin Hrtc'
                   |ls chunks s e0 Hin Hsplit Hm Hred|ls chunks s agg e0 Hin Hsplit Hm Hred Hw
                   |ls chunks s agg es es' Hin Hsplit Hm Hred Hw Hes Hes']; cbn [mo_fs];
    [done|done| | | |].
  - assert (Hall : rtc (map_step ac) (map_init chunks main_num_map_workers fs) s')
      by (etrans; eassumption).
    destruct (map_files_inv_rtc _ _ _ _ _ Hall) as (_ & _ & _ & _ & _ & Hkeep).
    by apply Hkeep.
  - destruct Hm as [Hrtc _].
    destruct (map_files_inv_rtc _ _ _ _ _ Hrtc) as (_ & _ & _ & _ & _ & Hkeep). by apply Hkeep.
  - destruct Hm as [Hrtc _].
    destruct (map_files_inv_rtc _ _ _ _ _ Hrtc) as (_ & _ & _ & _ & _ & Hkeep). by apply Hkeep.
  - destruct (cleanup_loop_props fails (m_results s)
                (write_final_result (m_fs s) es) [] []) as (_ & _ & _ & Hsame & _).
    unfold cleanup_intermediate_files. rewrite Hsame.
    + unfold write_final_result. rewrite lookup_insert_ne by congruence.
      destruct Hm as [Hrtc _].
      destruct (map_files_inv_rtc _ _ _ _ _ Hrtc) as (_ & _ & _ & _ & _ & Hkeep). by apply Hkeep.
    + intros Hn. destruct (map_phase_result_names _ _ _ _ _ _ Hm Hn) as (k & Hk & ->).
      by apply (Hmap k).
Qed.

Lemma main_other_files_witness :
  exists out,
    main_run full_access (fun _ => false)
      {[ main_file_path := "a b" +:+ String "010"%char ("a" +:+ String "010"%char EmptyString) ]}
      out /\
    mo_fs out !! main_file_path
      = Some ("a b" +:+ String "010"%char ("a" +:+ String "010"%char EmptyString)).
Proof.
  destruct main_run_two_lines as (out & Hrun & _). exists out. split; [exact Hrun|].
  rewrite (main_other_files full_access (fun _ => false) _ out main_file_path Hrun).
  - reflexivity.
  - discriminate.
  - intros k _. apply main_file_not_map_name.
Defined.
